(** * ErrorPropagator: the expression model and the uncertainty propagator

    A shallow embedding of [core/IB.py] (class [Expression]) and of the two
    request handlers of [server.py], with the properties of the specification
    stated and settled against them.

    The algebra engine the program is written against (sympy) is not part of
    the repository.  It enters as an interface, the class [Sympy] below, so
    that every general statement holds for any engine with that interface;
    a reference instance, [Mini], evaluates the documented examples. *)

From Stdlib Require Import ZArith QArith Qcanon Qabs Qcabs Qpower String Ascii List Lia Bool.
From stdpp Require Import base decidable option list sorting countable strings pretty gmap.

Local Open Scope string_scope.
Local Open Scope list_scope.
Local Open Scope Z_scope.

(** * Python-side vocabulary *)

(** The exceptions that occur in the modelled code, by their Python class.
    [Unsupported] is not a Python exception: the reference engine raises it
    where this development does not model the engine's behaviour. *)
Inductive exception : Type :=
| AttributeError (msg : string)
| TypeError (msg : string)
| ValueError (msg : string)
| SympifyError (msg : string)
| Unsupported (msg : string).

(** The outcome of a Python call: a value, or a raised exception. *)
Inductive result (A : Type) : Type :=
| Ok (a : A)
| Raise (e : exception).
Arguments Ok {A} a.
Arguments Raise {A} e.

Definition is_Ok {A} (r : result A) : Prop :=
  match r with Ok _ => True | Raise _ => False end.

(** A symbol made from a name alone, without assumptions of its own:
    [sympy.Symbol(name)], one item of [sympy.symbols(names)].  Every symbol
    the program makes is of this kind (lines 5, 6 and 72 of [core/IB.py],
    line 80 of [server.py]), and such a symbol is identified by its name
    ([var.name], [str(symbol)]). *)
Record Symbol : Type := mkSymbol { name : string }.

#[global] Instance Symbol_eq_dec : EqDecision Symbol.
Proof. solve_decision. Defined.

(** What [sympy.symbols(names)] returns: one symbol, or a tuple of them when
    the text holds several names, as in [a, b, c = sympy.symbols('a b c')]. *)
Inductive symbols_value : Type :=
| OneSymbol (s : Symbol)
| SymbolTuple (l : list Symbol).

(** The sympy classes the program tests for with [type(...) == ...]. *)
Inductive expr_class : Type := AddT | MulT | PowT | OtherT.

#[global] Instance expr_class_eq_dec : EqDecision expr_class.
Proof. solve_decision. Defined.

(** A decoded JSON value; a JSON object is a Python [dict]. *)
#[warnings="-register-all"]
Inductive json : Type :=
| JNull
| JBool (b : bool)
| JNum (q : Q)
| JStr (s : string)
| JArr (l : list json)
| JObj (fields : gmap string json).

#[global] Instance Symbol_countable : Countable Symbol.
Proof. refine (inj_countable' name mkSymbol _). by intros []. Defined.

(** * The engine interface *)

(** The operations of sympy the program calls.  [add], [mul] and [truediv]
    are Python's [+], [*] and [/] on expressions (automatically evaluated);
    [refine G e] is [sympy.refine(e)] when the process-wide
    [global_assumptions] hold the set [G]; [values_of_json] reads a decoded
    JSON object as the dictionary handed to [subs].

    [atoms_Symbol e] lists the members of the set [e.atoms(sympy.Symbol)],
    in the order Python iterates over it, each by its name: a formula read
    from a text can hold symbol atoms that differ in their assumptions only,
    and these are entries of the same name.

    [sympify j] is [sympy.sympify(j, evaluate=False)] of a request field:
    an expression, or [None] here when sympy returns an object of another
    kind, which has no method [atoms] (a Python list for a JSON array, for a
    text in square brackets). *)
Class Sympy : Type := {
  Expr : Type;
  Pred : Type;
  Pred_eq_dec :: EqDecision Pred;
  Pred_countable :: Countable Pred;
  Values : Type;
  Integer : Z -> Expr;
  sym : Symbol -> Expr;
  symbols : string -> result symbols_value;
  Q_positive : Symbol -> Pred;
  Abs : Expr -> Expr;
  add : Expr -> Expr -> Expr;
  mul : Expr -> Expr -> Expr;
  truediv : Expr -> Expr -> Expr;
  Pow : Expr -> Expr -> Expr;
  Mul_unevaluated : Expr -> Expr -> Expr;
  diff : Expr -> Symbol -> result Expr;
  refine : gset Pred -> Expr -> result Expr;
  subs : Expr -> Values -> Expr;
  func : Expr -> expr_class;
  args_of : Expr -> list Expr;
  atoms_Symbol : Expr -> list Symbol;
  latex : Expr -> string;
  sympify : json -> result (option Expr);
  values_of_json : json -> result Values;
}.

(** What the statements below use of the engine's meaning.  Under an
    assignment [rho] of rational numbers to the symbols an expression has a
    [value], or none (a division by zero, an operator without a rational
    value).  Automatic evaluation does not change a value that exists, an
    [Add] is the sum of its arguments, and [refine] leaves an integer as it
    is. *)
Class SympyLaws (E : Sympy) : Type := {
  value : (Symbol -> Qc) -> Expr -> option Qc;
  refine_Integer : forall G z, refine G (Integer z) = Ok (Integer z);
  value_Integer : forall rho z, value rho (Integer z) = Some (Q2Qc (inject_Z z));
  value_add : forall rho x y p q,
    value rho x = Some p -> value rho y = Some q ->
    value rho (add x y) = Some (p + q)%Qc;
  value_truediv : forall rho x y p q,
    value rho x = Some p -> value rho y = Some q -> q <> 0%Qc ->
    value rho (truediv x y) = Some (p / q)%Qc;
  value_Pow_minus_one : forall rho y q,
    value rho y = Some q -> q <> 0%Qc ->
    value rho (Pow y (Integer (-1))) = Some (/ q)%Qc;
  value_Mul_unevaluated : forall rho x y p q,
    value rho x = Some p -> value rho y = Some q ->
    value rho (Mul_unevaluated x y) = Some (p * q)%Qc;
  value_args_Add : forall rho x p,
    func x = AddT -> value rho x = Some p ->
    exists ps, Forall2 (fun t v => value rho t = Some v) (args_of x) ps
               /\ p = foldr Qcplus 0%Qc ps;
}.

(** * The process state and the monad of the program

    [sympy.assumptions.assume.global_assumptions] is one set shared by the
    whole process.  A computation reads and writes it and may raise; what it
    wrote stays written when it raises. *)
Section Monad.
Context {S : Type}.

Definition M (A : Type) : Type := S -> result A * S.

Definition ret {A} (a : A) : M A := fun G => (Ok a, G).

Definition raise {A} (e : exception) : M A := fun G => (Raise e, G).

Definition bind {A B} (c : M A) (k : A -> M B) : M B :=
  fun G => match c G with
           | (Ok a, G') => k a G'
           | (Raise e, G') => (Raise e, G')
           end.

Definition lift {A} (r : result A) : M A := fun G => (r, G).

Definition modify (f : S -> S) : M unit := fun G => (Ok tt, f G).

Definition get : M S := fun G => (Ok G, G).

(** [try: c except Exception as e: h e] *)
Definition try_except {A} (c : M A) (h : exception -> M A) : M A :=
  fun G => match c G with
           | (Ok a, G') => (Ok a, G')
           | (Raise e, G') => h e G'
           end.

(** A [for] loop that threads an accumulator. *)
Fixpoint for_each {A B} (l : list B) (body : A -> B -> M A) (acc : A) : M A :=
  match l with
  | [] => ret acc
  | x :: l' => bind (body acc x) (for_each l' body)
  end.

End Monad.

Declare Scope py_scope.
Delimit Scope py_scope with py.
Notation "x <- c ;; k" := (bind c (fun x => k))
  (at level 100, c at next level, right associativity) : py_scope.
Notation "c ;;; k" := (bind c (fun _ => k))
  (at level 100, right associativity) : py_scope.
Local Open Scope py_scope.

(** * core/IB.py *)

Section IB.
Context {E : Sympy}.

(** The process-wide assumption set. *)
Abbreviation assumptions := (gset Pred).

(** [class Expression]: the declared arguments and the formula. *)
Record Expression : Type := mkExpression {
  args : list Symbol;
  expr : Expr;
}.

(** [Expression.__init__]: both fields are stored as given. *)
Definition Expression_init (args0 : list Symbol) (expr0 : Expr) : result Expression :=
  Ok {| args := args0; expr := expr0 |}.

(** [Expression.evaluate]: [self.expr.subs(values)]. *)
Definition evaluate (self : Expression) (values : Values) : Expr :=
  subs (expr self) values.

(** [Expression.to_latex]: [sympy.latex(self.expr)]. *)
Definition to_latex (self : Expression) : string := latex (expr self).

(** The name handed to [sympy.symbols] for the uncertainty of [var]. *)
Definition delta_name (var : Symbol) : string := "Δ" +:+ name var.

(** The product [sympy.Abs(...) * d_var] of line 74 and its accumulation:
    defined for one symbol; a tuple operand raises [TypeError]. *)
Definition times_symbol (x : Expr) (d_var : symbols_value) : result Expr :=
  match d_var with
  | OneSymbol d => Ok (mul x (sym d))
  | SymbolTuple _ => Raise (TypeError "unsupported operand type(s): 'tuple'")
  end.

Definition the_symbol (d_var : symbols_value) : list Symbol :=
  match d_var with
  | OneSymbol d => [d]
  | SymbolTuple _ => []
  end.

(** The body of the loop of [calculate_absolute_uncertainty] (lines 72-75). *)
Definition uncertainty_step (self : Expression)
    (acc : list Symbol * Expr) (var : Symbol) : M (list Symbol * Expr) :=
  d_var <- lift (symbols (delta_name var)) ;;
  d <- lift (diff (expr self) var) ;;
  term <- lift (times_symbol (Abs d) d_var) ;;
  modify (fun G : assumptions => G ∪ {[ Q_positive var ]}) ;;;
  ret (fst acc ++ the_symbol d_var, add (snd acc) term).

(** [Expression.calculate_absolute_uncertainty(self, *assumptions)]. *)
Definition calculate_absolute_uncertainty (self : Expression)
    (assumed : list Pred) : M Expression :=
  let uncertainty_expr := Integer 0 in
  let uncertainty_args := [] in
  modify (fun G : assumptions => G ∪ list_to_set assumed) ;;;
  acc <- for_each (args self) (uncertainty_step self)
           (uncertainty_args, uncertainty_expr) ;;
  G <- get ;;
  uncertainty_expr <- lift (refine G (snd acc)) ;;
  modify (fun _ : assumptions => ∅) ;;;
  lift (Expression_init (fst acc) uncertainty_expr).

(** Python types of the two kinds of object compared in line 97. *)
Inductive pytype : Type :=
| ExpressionType
| SympyType (c : expr_class).

Definition pytype_eqb (a b : pytype) : bool :=
  match a, b with
  | ExpressionType, ExpressionType => true
  | SympyType c, SympyType d => bool_decide (c = d)
  | _, _ => false
  end.

Definition type_of_Expression (_ : Expression) : pytype := ExpressionType.
Definition type_of_Expr (x : Expr) : pytype := SympyType (func x).

(** The formula of the fractional uncertainty (lines 93-100), by the shape
    of the absolute one. *)
Definition fractional_formula (self absolute_uncertainty : Expression) : Expr :=
  let frac_uncertainty_expr := Integer 0 in
  if pytype_eqb (type_of_Expr (expr absolute_uncertainty)) (SympyType AddT) then
    fold_left (fun frac addend => add frac (truediv addend (expr self)))
              (args_of (expr absolute_uncertainty)) frac_uncertainty_expr
  else if pytype_eqb (type_of_Expr (expr absolute_uncertainty)) (SympyType MulT)
          || pytype_eqb (type_of_Expression absolute_uncertainty) (SympyType PowT) then
    truediv (expr absolute_uncertainty) (expr self)
  else
    Mul_unevaluated (expr absolute_uncertainty) (Pow (expr self) (Integer (-1))).

(** [Expression.calculate_fractional_uncertainty(self, *assumptions)]. *)
Definition calculate_fractional_uncertainty (self : Expression)
    (assumed : list Pred) : M Expression :=
  absolute_uncertainty <- calculate_absolute_uncertainty self assumed ;;
  lift (Expression_init (args absolute_uncertainty)
          (fractional_formula self absolute_uncertainty)).

(** ** Vocabulary of the statements *)

(** The uncertainty variable of [var]: the symbol named [Δ] + its name. *)
Definition delta_symbol (var : Symbol) : Symbol := mkSymbol (delta_name var).

(** [sympy.symbols] reads the name of the uncertainty variable of [var] as
    one symbol. *)
Definition single_delta (var : Symbol) : Prop :=
  symbols (delta_name var) = Ok (OneSymbol (delta_symbol var)).

(** The term of one variable, with derivative [d]. *)
Definition uncertainty_term (d : Expr) (var : Symbol) : Expr :=
  mul (Abs d) (sym (delta_symbol var)).

(** The sum accumulated over the variables [vars], whose derivatives are
    [ds], from [acc] on, in the order of the variables. *)
Definition uncertainty_sum (ds : list Expr) (vars : list Symbol) (acc : Expr) : Expr :=
  fold_left (fun acc dv => add acc (uncertainty_term (fst dv) (snd dv))) (zip ds vars) acc.

(** The implicit assumptions: every declared variable is positive. *)
Definition positivity (vars : list Symbol) : gset Pred :=
  list_to_set (Q_positive <$> vars).

(** The variable-containment invariant of the data model: every symbol of
    the formula is a declared variable. *)
Definition contained (args0 : list Symbol) (expr0 : Expr) : Prop :=
  forall s, s ∈ atoms_Symbol expr0 -> s ∈ args0.

End IB.

(** ** [Expression.__repr__] and further vocabulary *)

Section IB_repr.
Context {E : Sympy}.

(** [str(expr)], the plain rendering of a formula by the engine. *)
Variable sstr : Expr -> string.

(** Python's [repr] of a tuple whose items have the given [repr]s: a tuple
    of one item ends in a comma. *)
Definition tuple_repr (items : list string) : string :=
  match items with
  | [] => "()"
  | [x] => "(" +:+ x +:+ ",)"
  | _ => "(" +:+ String.concat ", " items +:+ ")"
  end.

(** [Expression.__repr__] (lines 39-41): one argument is rendered by itself,
    any other number of arguments as the tuple of them.  A symbol renders as
    its name. *)
Definition Expression_repr (self : Expression) : string :=
  match args self with
  | [arg0] => "f(" +:+ name arg0 +:+ ") = " +:+ sstr (expr self)
  | _ => "f" +:+ tuple_repr (name <$> args self) +:+ " = " +:+ sstr (expr self)
  end.

(** The sum accumulated by the loop of [calculate_absolute_uncertainty] when
    [symbols] gave the symbols [ss] and [diff] the derivatives [ds]. *)
Definition weighted_sum (ds : list Expr) (ss : list Symbol) (acc : Expr) : Expr :=
  fold_left (fun acc dv => add acc (mul (Abs (fst dv)) (sym (snd dv)))) (zip ds ss) acc.



End IB_repr.

(** * server.py *)

(** [mapR f l]: a list comprehension whose element expression may raise. *)
Fixpoint mapR {A B} (f : A -> result B) (l : list A) : result (list B) :=
  match l with
  | [] => Ok []
  | x :: l' =>
      match f x with
      | Raise e => Raise e
      | Ok y => match mapR f l' with Raise e => Raise e | Ok ys => Ok (y :: ys) end
      end
  end.

(** The characters of a Python string held as UTF-8 bytes: a continuation
    byte (10xxxxxx) belongs to the character before it. *)
Definition is_continuation (c : ascii) : bool :=
  match c with Ascii _ _ _ _ _ _ false true => true | _ => false end.

Fixpoint utf8_chars (s : string) : list string :=
  match s with
  | EmptyString => []
  | String c s' =>
      match utf8_chars s' with
      | t :: ts =>
          match t with
          | String d _ => if is_continuation d then String c t :: ts
                          else String c EmptyString :: t :: ts
          | EmptyString => String c EmptyString :: ts
          end
      | [] => [String c EmptyString]
      end
  end.

(** Lexicographic order of Python on pairs of strings. *)
Definition pair_leb (a b : string * string) : bool :=
  match String.compare (fst a) (fst b) with
  | Lt => true
  | Eq => String.leb (snd a) (snd b)
  | Gt => false
  end.

Definition pair_le (a b : string * string) : Prop := pair_leb a b = true.

#[global] Instance pair_le_dec a b : Decision (pair_le a b).
Proof. unfold pair_le. apply _. Defined.

(** [sorted(...)] of a list of pairs of strings. *)
Definition sorted (l : list (string * string)) : list (string * string) :=
  merge_sort pair_le l.

Definition dict_get (d : gmap string json) (k : string) (dflt : json) : json :=
  default dflt (d !! k).

(** [request.get_json().get(key, dflt)], where [payload] is what
    [request.get_json()] returned: the decoded body, any JSON value ([JNull]
    is Python's [None]).  Only a [dict] has a method [get]. *)
Definition json_get (payload : json) (key : string) (dflt : json) : result json :=
  match payload with
  | JObj d => Ok (dict_get d key dflt)
  | _ => Raise (AttributeError "object has no attribute 'get'")
  end.

Section Server.
Context {E : Sympy}.

(** The Python values the handlers pass around. *)
Inductive pyval : Type :=
| PJson (j : json)
| PExpression (e : Expression)
| PExpr (x : Expr)
| PPred (p : Pred).

(** A callable takes positional and keyword arguments. *)
Definition kwargs : Type := list (string * pyval).
Definition callable : Type := list pyval -> kwargs -> M (S := gset Pred) pyval.

(** A class, as far as the handlers use one: looking an attribute up yields a
    callable or raises; a method called on an instance receives it first. *)
Definition pyclass : Type := string -> result callable.

(** ** Python's binding of arguments to parameters

    [bind_call fname params varargs pos kw] binds a call with positional
    arguments [pos] and keyword arguments [kw] to a function whose parameters
    are [params] (none has a default) followed by [*args] when [varargs].
    It yields the parameters' values in order and the surplus positional
    arguments. *)
Fixpoint check_keywords (fname : string) (params by_keyword : list string)
    (kw : kwargs) : result unit :=
  match kw with
  | [] => Ok tt
  | (k, _) :: kw' =>
      if bool_decide (k ∈ by_keyword) then check_keywords fname params by_keyword kw'
      else if bool_decide (k ∈ params) then
        Raise (TypeError (fname +:+ "() got multiple values for argument '" +:+ k +:+ "'"))
      else
        Raise (TypeError (fname +:+ "() got an unexpected keyword argument '" +:+ k +:+ "'"))
  end.

Fixpoint lookup_keyword (p : string) (kw : kwargs) : option pyval :=
  match kw with
  | [] => None
  | (k, v) :: kw' => if bool_decide (k = p) then Some v else lookup_keyword p kw'
  end.

Fixpoint fill_keywords (fname : string) (kw : kwargs) (ps : list string) : result (list pyval) :=
  match ps with
  | [] => Ok []
  | p :: ps' =>
      match lookup_keyword p kw with
      | None => Raise (TypeError (fname +:+ "() missing a required argument: '" +:+ p +:+ "'"))
      | Some v =>
          match fill_keywords fname kw ps' with
          | Raise e => Raise e
          | Ok vs => Ok (v :: vs)
          end
      end
  end.

Definition bind_call (fname : string) (params : list string) (varargs : bool)
    (pos : list pyval) (kw : kwargs) : result (list pyval * list pyval) :=
  let surplus := drop (length params) pos in
  let by_keyword := drop (length pos) params in
  match surplus, varargs with
  | _ :: _, false => Raise (TypeError (fname +:+ "() takes too many positional arguments"))
  | _, _ =>
      match check_keywords fname params by_keyword kw with
      | Raise e => Raise e
      | Ok _ =>
          match fill_keywords fname kw by_keyword with
          | Raise e => Raise e
          | Ok vs => Ok (take (length params) pos ++ vs, surplus)
          end
      end
  end.

(** ** The class [Expression] as the handlers see it

    The functions of the class body of [core/IB.py], each with the parameter
    list of its [def].  [Expression.from_latex] is a classmethod whose body is
    [pass].  Names of the form [__x__] are not looked up by the handlers and
    are left out. *)
Definition as_predicate (v : pyval) : result Pred :=
  match v with
  | PPred p => Ok p
  | _ => Raise (Unsupported "an assumption that is no applied predicate")
  end.

Definition evaluate_method : callable := fun pos kw =>
  b <- lift (bind_call "evaluate" ["self"; "values"] false pos kw) ;;
  match b with
  | ([PExpression self; PJson values], _) =>
      v <- lift (values_of_json values) ;;
      ret (PExpr (evaluate self v))
  | _ => raise (Unsupported "evaluate: kinds of the arguments")
  end.

Definition calculate_absolute_uncertainty_method : callable := fun pos kw =>
  b <- lift (bind_call "calculate_absolute_uncertainty" ["self"] true pos kw) ;;
  match b with
  | ([PExpression self], assumed) =>
      preds <- lift (mapR as_predicate assumed) ;;
      r <- calculate_absolute_uncertainty self preds ;;
      ret (PExpression r)
  | _ => raise (Unsupported "calculate_absolute_uncertainty: kinds of the arguments")
  end.

Definition calculate_fractional_uncertainty_method : callable := fun pos kw =>
  b <- lift (bind_call "calculate_fractional_uncertainty" ["self"] true pos kw) ;;
  match b with
  | ([PExpression self], assumed) =>
      preds <- lift (mapR as_predicate assumed) ;;
      r <- calculate_fractional_uncertainty self preds ;;
      ret (PExpression r)
  | _ => raise (Unsupported "calculate_fractional_uncertainty: kinds of the arguments")
  end.

Definition to_latex_method : callable := fun pos kw =>
  b <- lift (bind_call "to_latex" ["self"] false pos kw) ;;
  match b with
  | ([PExpression self], _) => ret (PJson (JStr (to_latex self)))
  | _ => raise (Unsupported "to_latex: kinds of the arguments")
  end.

Definition from_latex_method : callable := fun pos kw =>
  b <- lift (bind_call "from_latex" ["latex"] false pos kw) ;;
  ret (PJson JNull).

Definition Expression_class : pyclass := fun attr =>
  if bool_decide (attr = "evaluate") then Ok evaluate_method
  else if bool_decide (attr = "calculate_absolute_uncertainty") then
    Ok calculate_absolute_uncertainty_method
  else if bool_decide (attr = "calculate_fractional_uncertainty") then
    Ok calculate_fractional_uncertainty_method
  else if bool_decide (attr = "to_latex") then Ok to_latex_method
  else if bool_decide (attr = "from_latex") then Ok from_latex_method
  else Raise (AttributeError ("type object 'Expression' has no attribute '" +:+ attr +:+ "'")).

(** ** The handlers *)

(** A method call [obj.attr(...)] on an instance of [cls]. *)
Definition call_method (cls : pyclass) (self : pyval) (attr : string)
    (pos : list pyval) (kw : kwargs) : M pyval :=
  f <- lift (cls attr) ;;
  f (self :: pos) kw.

(** [sympy.latex(v)] of the value of an evaluation. *)
Definition sympy_latex (v : pyval) : result string :=
  match v with
  | PExpr x => Ok (latex x)
  | _ => Raise (Unsupported "latex of a value that is no expression")
  end.

(** [v * 100] *)
Definition times_100 (v : pyval) : result pyval :=
  match v with
  | PExpr x => Ok (PExpr (mul x (Integer 100)))
  | _ => Raise (Unsupported "product of a value that is no expression")
  end.

(** A value [jsonify] can serialise. *)
Definition jsonable (v : pyval) : result json :=
  match v with
  | PJson j => Ok j
  | _ => Raise (TypeError "Object is not JSON serializable")
  end.

(** [for var in j] *)
Definition iterate (j : json) : result (list json) :=
  match j with
  | JArr l => Ok l
  | JStr s => Ok (JStr <$> utf8_chars s)
  | JObj d => Ok (JStr <$> (fst <$> map_to_list d))
  | _ => Raise (TypeError "object is not iterable")
  end.

(** [sympy.Q.positive(sympy.Symbol(var))] *)
Definition positive_assumption (var : json) : result pyval :=
  match var with
  | JStr s => Ok (PPred (Q_positive (mkSymbol s)))
  | _ => Raise (TypeError "name should be a string")
  end.

Definition calculate_response (success : bool)
    (value absoluteUncertaintyExpr absoluteUncertainty
     fractionalUncertaintyExpr percentageUncertainty : json) : gmap string json :=
  list_to_map [("success", JBool success);
               ("value", value);
               ("absoluteUncertaintyExpr", absoluteUncertaintyExpr);
               ("absoluteUncertainty", absoluteUncertainty);
               ("fractionalUncertaintyExpr", fractionalUncertaintyExpr);
               ("percentageUncertainty", percentageUncertainty)].

(** The fields of the response, and those that hold strings. *)
Definition string_fields : list string :=
  ["value"; "absoluteUncertaintyExpr"; "absoluteUncertainty";
   "fractionalUncertaintyExpr"; "percentageUncertainty"].

Definition response_fields : list string := "success" :: string_fields.

(** The keys of the request body that [calculate_uncertainties] reads
    (lines 72-77). *)
Definition request_keys : list string :=
  ["expr"; "args"; "vars"; "values"; "prec"; "refine"].

(** The response of the [except] branch (lines 93-100). *)
Definition calculate_failure : gmap string json :=
  calculate_response false (JStr "") (JStr "") (JStr "") (JStr "") (JStr "").

(** The [try] block of [calculate_uncertainties] (lines 79-90), for a class
    [cls] bound to the name [Expression]. *)
Definition calculate_uncertainties_try (cls : pyclass)
    (str_expr str_args str_vars values prec refine : json) : M (gmap string json) :=
  from_string <- lift (cls "from_string") ;;
  expr <- from_string [PJson str_args; PJson str_expr] [] ;;
  vars <- lift (iterate str_vars) ;;
  assumed <- lift (mapR positive_assumption vars) ;;
  absolute_uncertainty_expr <-
    call_method cls expr "calculate_absolute_uncertainty" assumed [("refine", PJson refine)] ;;
  fractional_uncertainty_expr <-
    call_method cls expr "calculate_fractional_uncertainty" assumed [("refine", PJson refine)] ;;
  v <- call_method cls expr "evaluate" [PJson values] [("precision", PJson prec)] ;;
  value <- lift (sympy_latex v) ;;
  abs_expr <- call_method cls absolute_uncertainty_expr "to_latex" [] [] ;;
  abs_expr <- lift (jsonable abs_expr) ;;
  av <- call_method cls absolute_uncertainty_expr "evaluate" [PJson values]
          [("precision", PJson prec)] ;;
  abs_value <- lift (sympy_latex av) ;;
  frac_expr <- call_method cls fractional_uncertainty_expr "to_latex" [] [] ;;
  frac_expr <- lift (jsonable frac_expr) ;;
  fv <- call_method cls fractional_uncertainty_expr "evaluate" [PJson values]
          [("precision", PJson prec)] ;;
  fv100 <- lift (times_100 fv) ;;
  percentage <- lift (sympy_latex fv100) ;;
  ret (calculate_response true (JStr value) abs_expr (JStr abs_value)
         frac_expr (JStr percentage)).

(** [calculate_uncertainties] (lines 72-100) when the decoded body of the
    request is the [dict] [body], for a class [cls] bound to the name
    [Expression]. *)
Definition calculate_uncertainties_with (cls : pyclass)
    (body : gmap string json) : M (gmap string json) :=
  let str_expr := dict_get body "expr" (JStr "") in
  let str_args := dict_get body "args" (JArr []) in
  let str_vars := dict_get body "vars" (JArr []) in
  let values := dict_get body "values" (JObj ∅) in
  let prec := dict_get body "prec" (JNum 3) in
  let refine := dict_get body "refine" (JBool false) in
  try_except
    (calculate_uncertainties_try cls str_expr str_args str_vars values prec refine)
    (fun e => ret calculate_failure).

(** The handler of the program: [Expression] is the class of [core/IB.py]. *)
Definition calculate_uncertainties (body : gmap string json) : M (gmap string json) :=
  calculate_uncertainties_with Expression_class body.

(** [calculate_uncertainties] (lines 72-100) on whatever
    [request.get_json()] returns.  The six reads of lines 72-77 come before
    the [try]: what they raise is not caught, and leaves the handler. *)
Definition calculate_uncertainties_request (cls : pyclass)
    (payload : json) : M (gmap string json) :=
  str_expr <- lift (json_get payload "expr" (JStr "")) ;;
  str_args <- lift (json_get payload "args" (JArr [])) ;;
  str_vars <- lift (json_get payload "vars" (JArr [])) ;;
  values <- lift (json_get payload "values" (JObj ∅)) ;;
  prec <- lift (json_get payload "prec" (JNum 3)) ;;
  refine <- lift (json_get payload "refine" (JBool false)) ;;
  try_except
    (calculate_uncertainties_try cls str_expr str_args str_vars values prec refine)
    (fun e => ret calculate_failure).

Definition symbols_response (success : bool) (symbols0 : list (string * string))
    (latex0 : string) : gmap string json :=
  list_to_map [("success", JBool success);
               ("symbols", JArr ((fun p => JArr [JStr (fst p); JStr (snd p)]) <$> symbols0));
               ("latex", JStr latex0)].

(** The [try] block of [get_symbols] (lines 41-45): the sorted pairs and the
    markup.  [expr.atoms] raises on an object that is no expression;
    [str(symbol)] is the symbol's name. *)
Definition get_symbols_try (str_expr : json) : result (list (string * string) * string) :=
  match sympify str_expr with
  | Raise e => Raise e
  | Ok None => Raise (AttributeError "object has no attribute 'atoms'")
  | Ok (Some expr0) =>
      let symbols0 := atoms_Symbol expr0 in
      let str_symbols :=
        sorted ((fun symbol => (name symbol, latex (sym symbol))) <$> symbols0) in
      let expression := latex expr0 in
      Ok (str_symbols, expression)
  end.

(** [get_symbols] (lines 39-55) on whatever [request.get_json()] returns.
    The read of line 39 comes before the [try]: what it raises leaves the
    handler. *)
Definition get_symbols (payload : json) : result (gmap string json) :=
  match json_get payload "expr" JNull with
  | Raise e => Raise e
  | Ok str_expr =>
      match get_symbols_try str_expr with
      | Ok (str_symbols, expression) => Ok (symbols_response true str_symbols expression)
      | Raise e => Ok (symbols_response false [] "")
      end
  end.

End Server.

(** * A reference engine

    [Mini] is an instance of the engine interface that computes: expressions
    over rational numbers and symbols with sums, products, powers and
    absolute values, kept in the evaluated form sympy keeps them in (flat
    sums and products, numeric parts folded, like terms and like bases
    collected, arguments in a fixed order).  It covers what the documented
    examples of [core/IB.py] need.  Where the engine's behaviour is not
    modelled (derivatives through an absolute value or a symbolic exponent,
    the range and escape syntax of [symbols], the grammar of [sympify] beyond
    a name or a number, floating-point numbers, complex infinity) an
    operation raises [Unsupported] or leaves the expression unevaluated. *)
Module Mini.

#[warnings="-register-all"]
Inductive Expr : Type :=
| Num (q : Q)
| Sym (s : string)
| Add (ts : list Expr)
| Mul (fs : list Expr)
| Pow (b e : Expr)
| Abs (x : Expr).

(** Applied predicates [Q.positive(s)] and [Q.negative(s)] on a symbol. *)
Inductive Pred : Type :=
| Qpositive (s : Symbol)
| Qnegative (s : Symbol).

#[global] Instance Pred_eq_dec : EqDecision Pred.
Proof. solve_decision. Defined.

#[global] Instance Pred_countable : Countable Pred.
Proof.
  refine (inj_countable'
            (fun p => match p with Qpositive s => inl s | Qnegative s => inr s end)
            (fun x => match x with inl s => Qpositive s | inr s => Qnegative s end) _).
  by intros [].
Defined.

Definition num (z : Z) : Expr := Num (inject_Z z).

Definition is_int (q : Q) : bool := Pos.eqb (Qden q) 1.

Definition rank (x : Expr) : nat :=
  match x with
  | Num _ => 0 | Sym _ => 1 | Pow _ _ => 2 | Abs _ => 3 | Mul _ => 4 | Add _ => 5
  end%nat.

(** The order in which arguments are kept: numbers first. *)
Fixpoint cmp (x y : Expr) {struct x} : comparison :=
  match x, y with
  | Num p, Num q =>
      match Z.compare (Qnum p) (Qnum q) with
      | Eq => Pos.compare (Qden p) (Qden q)
      | c => c
      end
  | Sym s, Sym t => String.compare s t
  | Add l, Add m =>
      (fix go (l m : list Expr) {struct l} : comparison :=
         match l, m with
         | [], [] => Eq
         | [], _ :: _ => Lt
         | _ :: _, [] => Gt
         | a :: l', b :: m' => match cmp a b with Eq => go l' m' | c => c end
         end) l m
  | Mul l, Mul m =>
      (fix go (l m : list Expr) {struct l} : comparison :=
         match l, m with
         | [], [] => Eq
         | [], _ :: _ => Lt
         | _ :: _, [] => Gt
         | a :: l', b :: m' => match cmp a b with Eq => go l' m' | c => c end
         end) l m
  | Pow b e, Pow b' e' => match cmp b b' with Eq => cmp e e' | c => c end
  | Abs u, Abs v => cmp u v
  | _, _ => Nat.compare (rank x) (rank y)
  end.

(** ** Sums *)

(** [as_coeff_Mul]: a term as a rational coefficient and the rest. *)
Definition coeff_term (t : Expr) : Q * Expr :=
  match t with
  | Num q => (q, Num 1)
  | Mul [Num q; f] => (q, f)
  | Mul (Num q :: fs) => (q, Mul fs)
  | _ => (1%Q, t)
  end.

(** The term [c * t] for a rational [c]. *)
Definition scale (c : Q) (t : Expr) : Expr :=
  if Qeq_bool c 1 then t
  else match t with
       | Num r => Num (Qred (c * r))
       | Mul fs => Mul (Num c :: fs)
       | _ => Mul [Num c; t]
       end.

(** Insert the term [c * t] into the ordered terms [ts], collecting it with
    a term that has the same non-numeric part. *)
Fixpoint add_term (c : Q) (t : Expr) (ts : list Expr) : list Expr :=
  match ts with
  | [] => [scale c t]
  | u :: ts' =>
      match cmp t (snd (coeff_term u)) with
      | Eq => let s := Qred (c + fst (coeff_term u)) in
              if Qeq_bool s 0 then ts' else scale s t :: ts'
      | Lt => scale c t :: u :: ts'
      | Gt => u :: add_term c t ts'
      end
  end.

Definition terms (x : Expr) : list Expr :=
  match x with Add ts => ts | _ => [x] end.

Definition add_step (acc : list Expr) (t : Expr) : list Expr :=
  let c := fst (coeff_term t) in
  if Qeq_bool c 0 then acc else add_term c (snd (coeff_term t)) acc.

Definition mk_add (ts : list Expr) : Expr :=
  match ts with
  | [] => Num 0
  | [t] => t
  | _ => Add ts
  end.

(** [x + y] *)
Definition add (x y : Expr) : Expr :=
  mk_add (fold_left add_step (terms x ++ terms y) []).

(** ** Products and powers *)

(** [as_base_exp], for an integer exponent. *)
Definition base_exp (f : Expr) : Expr * Z :=
  match f with
  | Pow b (Num n) => if is_int n then (b, Qnum n) else (f, 1)
  | _ => (f, 1)
  end.

Definition mk_pow (b : Expr) (n : Z) : Expr :=
  if n =? 0 then Num 1 else if n =? 1 then b else Pow b (num n).

(** Insert the factor [b ** n] into the ordered factors [fs], collecting it
    with a factor that has the same base. *)
Fixpoint mul_factor (b : Expr) (n : Z) (fs : list Expr) : list Expr :=
  match fs with
  | [] => [mk_pow b n]
  | f :: fs' =>
      match cmp b (fst (base_exp f)) with
      | Eq => if n + snd (base_exp f) =? 0 then fs'
              else mk_pow b (n + snd (base_exp f)) :: fs'
      | Lt => mk_pow b n :: f :: fs'
      | Gt => f :: mul_factor b n fs'
      end
  end.

Definition factors (x : Expr) : list Expr :=
  match x with Mul fs => fs | _ => [x] end.

Definition mul_step (acc : Q * list Expr) (f : Expr) : Q * list Expr :=
  match f with
  | Num q => (Qred (fst acc * q), snd acc)
  | _ => if snd (base_exp f) =? 0 then acc
         else (fst acc, mul_factor (fst (base_exp f)) (snd (base_exp f)) (snd acc))
  end.

(** A rational coefficient times ordered factors; a coefficient is
    distributed over a sum that is the only factor. *)
Definition mk_mul (c : Q) (fs : list Expr) : Expr :=
  if Qeq_bool c 0 then Num 0
  else match fs with
       | [] => Num c
       | [f] => if Qeq_bool c 1 then f
                else match f with
                     | Add ts => Add (scale c <$> ts)
                     | _ => Mul [Num c; f]
                     end
       | _ => if Qeq_bool c 1 then Mul fs else Mul (Num c :: fs)
       end.

(** [x * y] *)
Definition mul (x y : Expr) : Expr :=
  let r := fold_left mul_step (factors x ++ factors y) (1%Q, []) in
  mk_mul (fst r) (snd r).

(** [f ** n] for a factor [f] that is no product and an integer [n]. *)
Definition pow_atom (f : Expr) (n : Z) : Expr :=
  match f with
  | Num q => if Qeq_bool q 0 && (n <? 0) then Pow f (num n)
             else Num (Qred (Qpower q n))
  | Pow b (Num m) => if is_int m then mk_pow b (Qnum m * n) else Pow f (num n)
  | _ => mk_pow f n
  end.

(** [b ** n] for an integer [n]: an integer power goes into a product. *)
Definition pow_int (b : Expr) (n : Z) : Expr :=
  if n =? 0 then Num 1
  else if n =? 1 then b
  else match b with
       | Mul fs => Mul ((fun f => pow_atom f n) <$> fs)
       | _ => pow_atom b n
       end.

(** [Pow(b, e)] *)
Definition pow (b e : Expr) : Expr :=
  match e with
  | Num n => if is_int n then pow_int b (Qnum n) else Pow b e
  | _ => Pow b e
  end.

(** [x / y] is [x * y ** -1]. *)
Definition truediv (x y : Expr) : Expr := mul x (pow y (num (-1))).

Definition neg (x : Expr) : Expr := mul (num (-1)) x.

(** [x - y] is [x + (-y)]. *)
Definition sub (x y : Expr) : Expr := add x (neg y).

(** [Abs(x)]: the absolute value of a number is computed and a numeric
    factor leaves the bars. *)
Definition abs (x : Expr) : Expr :=
  match x with
  | Num q => Num (Qabs q)
  | Abs _ => x
  | _ => match snd (coeff_term x) with
         | Abs _ as u => scale (Qabs (fst (coeff_term x))) u
         | u => scale (Qabs (fst (coeff_term x))) (Abs u)
         end
  end.

(** ** Symbols, derivatives, substitution *)

Fixpoint atoms (x : Expr) : gset Symbol :=
  match x with
  | Num _ => ∅
  | Sym s => {[ mkSymbol s ]}
  | Add ts => ⋃ (atoms <$> ts)
  | Mul fs => ⋃ (atoms <$> fs)
  | Pow b e => atoms b ∪ atoms e
  | Abs u => atoms u
  end.

Definition product (fs : list Expr) : Expr := fold_right mul (Num 1) fs.

Definition unmodelled_derivative : exception :=
  Unsupported "derivative through an absolute value or a symbolic exponent".

(** [x.diff(v)] *)
Fixpoint diff (x : Expr) (v : Symbol) {struct x} : result Expr :=
  match x with
  | Num _ => Ok (Num 0)
  | Sym s => Ok (if bool_decide (mkSymbol s = v) then Num 1 else Num 0)
  | Add ts =>
      (fix go (ts : list Expr) : result Expr :=
         match ts with
         | [] => Ok (Num 0)
         | t :: ts' =>
             match diff t v, go ts' with
             | Ok d, Ok r => Ok (add d r)
             | Raise e, _ => Raise e
             | _, Raise e => Raise e
             end
         end) ts
  | Mul fs =>
      (fix go (fs : list Expr) : result Expr :=
         match fs with
         | [] => Ok (Num 0)
         | f :: fs' =>
             match diff f v, go fs' with
             | Ok d, Ok r => Ok (add (mul d (product fs')) (mul f r))
             | Raise e, _ => Raise e
             | _, Raise e => Raise e
             end
         end) fs
  | Pow b (Num n) =>
      if is_int n then
        match diff b v with
        | Ok d => Ok (mul (mul (Num n) (pow_int b (Qnum n - 1))) d)
        | Raise e => Raise e
        end
      else if bool_decide (v ∈ atoms b) then Raise unmodelled_derivative
      else Ok (Num 0)
  | Pow b e =>
      if bool_decide (v ∈ atoms b ∪ atoms e) then Raise unmodelled_derivative
      else Ok (Num 0)
  | Abs u =>
      if bool_decide (v ∈ atoms u) then Raise unmodelled_derivative
      else Ok (Num 0)
  end.

(** [x.subs(values)] *)
Fixpoint subs (x : Expr) (values : gmap string Expr) {struct x} : Expr :=
  match x with
  | Num _ => x
  | Sym s => default x (values !! s)
  | Add ts => fold_right add (Num 0) ((fun t => subs t values) <$> ts)
  | Mul fs => fold_right mul (Num 1) ((fun f => subs f values) <$> fs)
  | Pow b e => pow (subs b values) (subs e values)
  | Abs u => abs (subs u values)
  end.

(** ** Assumptions and [refine] *)

Inductive sign : Type := Positive | Negative | Zero.

Definition sign_mul (a b : sign) : sign :=
  match a, b with
  | Zero, _ | _, Zero => Zero
  | Positive, s | s, Positive => s
  | Negative, Negative => Positive
  end.

Definition sign_add (a b : option sign) : option sign :=
  match a, b with
  | Some Zero, s | s, Some Zero => s
  | Some Positive, Some Positive => Some Positive
  | Some Negative, Some Negative => Some Negative
  | _, _ => None
  end.

Definition sign_pow (a : sign) (n : Z) : option sign :=
  match a with
  | Positive => Some Positive
  | Negative => Some (if Z.even n then Positive else Negative)
  | Zero => if 0 <? n then Some Zero else None
  end.

Definition inconsistent : exception := ValueError "inconsistent assumptions".


(** What the assumptions [G] tell about the sign of [x]; asking about a
    symbol assumed both positive and negative raises [ValueError]. *)
Fixpoint sign_of (G : gset Pred) (x : Expr) {struct x} : result (option sign) :=
  match x with
  | Num q => Ok (Some (match Qcompare q 0 with Lt => Negative | Eq => Zero | Gt => Positive end))
  | Sym s =>
      let p := bool_decide (Qpositive (mkSymbol s) ∈ G) in
      let n := bool_decide (Qnegative (mkSymbol s) ∈ G) in
      if p && n then Raise inconsistent
      else if p then Ok (Some Positive)
      else if n then Ok (Some Negative)
      else Ok None
  | Mul fs =>
      (fix go (fs : list Expr) : result (option sign) :=
         match fs with
         | [] => Ok (Some Positive)
         | f :: fs' =>
             match sign_of G f, go fs' with
             | Ok (Some a), Ok (Some b) => Ok (Some (sign_mul a b))
             | Raise e, _ => Raise e
             | _, Raise e => Raise e
             | _, _ => Ok None
             end
         end) fs
  | Add ts =>
      (fix go (ts : list Expr) : result (option sign) :=
         match ts with
         | [] => Ok (Some Zero)
         | t :: ts' =>
             match sign_of G t, go ts' with
             | Ok a, Ok b => Ok (sign_add a b)
             | Raise e, _ => Raise e
             | _, Raise e => Raise e
             end
         end) ts
  | Pow b (Num n) =>
      if is_int n then
        match sign_of G b with
        | Ok (Some a) => Ok (sign_pow a (Qnum n))
        | r => r
        end
      else Ok None
  | Pow _ _ => Ok None
  | Abs _ => Ok None
  end.

(** [sympy.refine(x)] under the assumptions [G]: the arguments are refined
    and the expression rebuilt; [Abs(u)] becomes [u] when [u] is known not
    to be negative and [-u] when it is known to be negative. *)
Fixpoint refine (G : gset Pred) (x : Expr) {struct x} : result Expr :=
  match x with
  | Num _ | Sym _ => Ok x
  | Add ts =>
      match mapR (refine G) ts with
      | Ok rs => Ok (fold_left add rs (Num 0))
      | Raise e => Raise e
      end
  | Mul fs =>
      match mapR (refine G) fs with
      | Ok rs => Ok (fold_left mul rs (Num 1))
      | Raise e => Raise e
      end
  | Pow b e =>
      match refine G b, refine G e with
      | Ok b', Ok e' => Ok (pow b' e')
      | Raise e, _ => Raise e
      | _, Raise e => Raise e
      end
  | Abs u =>
      match refine G u with
      | Ok u' =>
          match sign_of G u' with
          | Ok (Some Negative) => Ok (neg u')
          | Ok (Some _) => Ok u'
          | Ok None => Ok (abs u')
          | Raise e => Raise e
          end
      | Raise e => Raise e
      end
  end.

(** ** [sympy.symbols]

    The text is split at commas and at white space; one name yields one
    symbol, several names (or a trailing comma) a tuple. *)
Definition is_space (c : ascii) : bool :=
  let n := nat_of_ascii c in
  ((9 <=? n) && (n <=? 13) || (28 <=? n) && (n <=? 32))%nat.

Definition is_comma (c : ascii) : bool := bool_decide (c = ","%char).

(** Characters whose treatment is not modelled: the range and escape marks,
    and the lead bytes of the non-ASCII white space of Unicode. *)
Definition unmodelled_char (c : ascii) : bool :=
  bool_decide (c = ":"%char) || bool_decide (c = "\"%char)
  || bool_decide (nat_of_ascii c ∈ [194; 225; 226; 227]%nat).

(** [split p cs]: the pieces of [cs] between the characters that satisfy [p]. *)
Fixpoint split (p : ascii -> bool) (cs : list ascii) : list (list ascii) :=
  match cs with
  | [] => [[]]
  | c :: cs' =>
      if p c then [] :: split p cs'
      else match split p cs' with
           | w :: ws => (c :: w) :: ws
           | [] => [[c]]
           end
  end.

Fixpoint lstrip (cs : list ascii) : list ascii :=
  match cs with
  | c :: cs' => if is_space c then lstrip cs' else cs
  | [] => []
  end.

Definition rstrip (cs : list ascii) : list ascii := rev (lstrip (rev cs)).
Definition strip (cs : list ascii) : list ascii := rstrip (lstrip cs).

Definition is_nil {A} (l : list A) : bool := match l with [] => true | _ => false end.

(** [s.split()]: the words between runs of white space. *)
Definition words (cs : list ascii) : list (list ascii) :=
  filter (fun w => negb (is_nil w)) (split is_space cs).

Definition ends_with_comma (cs : list ascii) : bool :=
  match rev cs with c :: _ => is_comma c | [] => false end.

Definition symbol_of_chars (w : list ascii) : Symbol :=
  mkSymbol (string_of_list_ascii w).

Definition symbols (names : string) : result symbols_value :=
  let cs := list_ascii_of_string names in
  if existsb unmodelled_char cs then
    Raise (Unsupported "symbols: range, escape or non-ASCII white space")
  else
    let cs := strip cs in
    let as_seq := ends_with_comma cs in
    let cs := if as_seq then rstrip (removelast cs) else cs in
    if is_nil cs then Raise (ValueError "no symbols given")
    else
      let pieces := strip <$> split is_comma cs in
      if existsb is_nil pieces then Raise (ValueError "missing symbol between commas")
      else
        match mjoin (words <$> pieces), as_seq with
        | [w], false => Ok (OneSymbol (symbol_of_chars w))
        | ws, _ => Ok (SymbolTuple (symbol_of_chars <$> ws))
        end.

(** ** Text: [sympify] and [latex] *)

Definition is_digit (c : ascii) : bool :=
  let n := nat_of_ascii c in ((48 <=? n) && (n <=? 57))%nat.

Definition is_lower (c : ascii) : bool :=
  let n := nat_of_ascii c in ((97 <=? n) && (n <=? 122))%nat.

Definition digits_value (cs : list ascii) : Z :=
  fold_left (fun acc c => 10 * acc + (Z.of_nat (nat_of_ascii c) - 48)) cs 0.

(** [sympy.sympify(j, evaluate=False)] where it yields an expression: a
    one-letter lower-case name is a symbol and a decimal numeral an integer;
    [None] and the empty text are refused by sympy; no other text is
    modelled. *)
Definition sympify (j : json) : result Expr :=
  match j with
  | JNull => Raise (SympifyError "None")
  | JStr s =>
      match list_ascii_of_string s with
      | [] => Raise (SympifyError "could not parse ''")
      | [c] => if is_lower c then Ok (Sym s)
               else if is_digit c then Ok (num (digits_value [c]))
               else Raise (Unsupported "sympify: text that is no name or numeral")
      | c :: cs =>
          if forallb is_digit (c :: cs) && negb (bool_decide (c = "0"%char))
          then Ok (num (digits_value (c :: cs)))
          else Raise (Unsupported "sympify: text that is no name or numeral")
      end
  | JNum q => if is_int q then Ok (Num q)
              else Raise (Unsupported "sympify: floating-point number")
  | _ => Raise (Unsupported "sympify: value that is no text or number")
  end.

(** [sympy.sympify] of any request field: a JSON array of such values comes
    back as a Python list, which is no expression. *)
Definition sympify_object (j : json) : result (option Expr) :=
  match j with
  | JArr l =>
      match mapR sympify l with
      | Ok _ => Ok None
      | Raise e => Raise e
      end
  | _ =>
      match sympify j with
      | Ok e => Ok (Some e)
      | Raise e => Raise e
      end
  end.

(** The dictionary of [subs] read from a decoded JSON object of integers. *)
Definition value_of_json (j : json) : result Expr :=
  match j with
  | JNum q => if is_int q then Ok (Num q)
              else Raise (Unsupported "floating-point number")
  | _ => Raise (Unsupported "substituted value that is no number")
  end.

Definition values_of_json (j : json) : result (gmap string Expr) :=
  match j with
  | JObj d =>
      match mapR (fun kv => match value_of_json (snd kv) with
                            | Ok v => Ok (fst kv, v)
                            | Raise e => Raise e
                            end) (map_to_list d) with
      | Ok kvs => Ok (list_to_map kvs)
      | Raise e => Raise e
      end
  | _ => Raise (TypeError "values: a dictionary is expected")
  end.

Definition join (sep : string) (l : list string) : string := String.concat sep l.

(** A structural rendering.  It agrees with [sympy.latex] on a symbol with a
    one-letter name and on a natural number, which is what the examples
    use. *)
Fixpoint latex (x : Expr) : string :=
  match x with
  | Num q => if is_int q then pretty (Qnum q)
             else "\frac{" +:+ pretty (Qnum q) +:+ "}{" +:+ pretty (Zpos (Qden q)) +:+ "}"
  | Sym s => s
  | Add ts => join " + " (latex <$> ts)
  | Mul fs => join " " (latex <$> fs)
  | Pow b e => latex b +:+ "^{" +:+ latex e +:+ "}"
  | Abs u => "\left|{" +:+ latex u +:+ "}\right|"
  end.

(** ** The value of an expression

    Under an assignment of rational numbers to the symbols an expression has
    a value, unless it divides by zero or has an exponent that is no integer
    numeral. *)
Definition qpow (v : Qc) (n : Z) : option Qc :=
  match n with
  | Z0 => Some 1%Qc
  | Zpos p => Some (v ^ Pos.to_nat p)%Qc
  | Zneg p => if decide (v = 0%Qc) then None else Some (/ (v ^ Pos.to_nat p))%Qc
  end.

(** [zpow v n] is [v ** n] for [v <> 0]. *)
Definition zpow (v : Qc) (n : Z) : Qc :=
  match n with
  | Z0 => 1%Qc
  | Zpos p => (v ^ Pos.to_nat p)%Qc
  | Zneg p => (/ (v ^ Pos.to_nat p))%Qc
  end.

Definition lift2 (f : Qc -> Qc -> Qc) (a b : option Qc) : option Qc :=
  match a, b with
  | Some x, Some y => Some (f x y)
  | _, _ => None
  end.

Definition sum_opt (l : list (option Qc)) : option Qc :=
  fold_right (lift2 Qcplus) (Some 0%Qc) l.

Definition prod_opt (l : list (option Qc)) : option Qc :=
  fold_right (lift2 Qcmult) (Some 1%Qc) l.

Fixpoint value (rho : Symbol -> Qc) (x : Expr) {struct x} : option Qc :=
  match x with
  | Num q => Some (Q2Qc q)
  | Sym s => Some (rho (mkSymbol s))
  | Add ts => sum_opt (value rho <$> ts)
  | Mul fs => prod_opt (value rho <$> fs)
  | Pow b (Num n) =>
      if is_int n then
        match value rho b with
        | Some v => qpow v (Qnum n)
        | None => None
        end
      else None
  | Pow _ _ => None
  | Abs u => Qcabs <$> value rho u
  end.

Definition func (x : Expr) : expr_class :=
  match x with
  | Add _ => AddT
  | Mul _ => MulT
  | Pow _ _ => PowT
  | _ => OtherT
  end.

Definition args_of (x : Expr) : list Expr :=
  match x with
  | Add ts => ts
  | Mul fs => fs
  | Pow b e => [b; e]
  | Abs u => [u]
  | _ => []
  end.

End Mini.

#[global] Instance Mini_engine : Sympy := {|
  Expr := Mini.Expr;
  Pred := Mini.Pred;
  Values := gmap string Mini.Expr;
  Integer := Mini.num;
  sym := fun s => Mini.Sym (name s);
  symbols := Mini.symbols;
  Q_positive := Mini.Qpositive;
  Abs := Mini.abs;
  add := Mini.add;
  mul := Mini.mul;
  truediv := Mini.truediv;
  Pow := Mini.pow;
  Mul_unevaluated := fun x y => Mini.Mul [x; y];
  diff := Mini.diff;
  refine := Mini.refine;
  subs := Mini.subs;
  func := Mini.func;
  args_of := Mini.args_of;
  atoms_Symbol := fun x => elements (Mini.atoms x);
  latex := Mini.latex;
  sympify := Mini.sympify_object;
  values_of_json := Mini.values_of_json;
|}.


(** * The documented examples

    The symbols of the doctests of [core/IB.py] and their expressions in the
    reference engine. *)
Module Ex.
Definition a : Symbol := mkSymbol "a".
Definition b : Symbol := mkSymbol "b".
Definition c : Symbol := mkSymbol "c".
Definition d_a : Symbol := mkSymbol "Δa".
Definition d_b : Symbol := mkSymbol "Δb".
Definition d_c : Symbol := mkSymbol "Δc".
(** A symbol whose name holds a blank: [sympy.Symbol('a b')]. *)
Definition a_b : Symbol := mkSymbol "a b".

Definition E (s : Symbol) : Mini.Expr := Mini.Sym (name s).

(** [Expression(args, expr)] over the reference engine. *)
Definition expression (args0 : list Symbol) (expr0 : Mini.Expr) : Expression (E := Mini_engine) :=
  {| args := args0; expr := expr0 |}.

(** Running a computation from the process state [G]. *)
Definition run {A} (m : M (S := gset Mini.Pred) A) (G : gset Mini.Pred) : result A :=
  fst (m G).
End Ex.

(** * Properties of [core/IB.py] *)

Section IB_properties.
Context {E : Sympy}.
Implicit Types (G : gset Pred) (self : Expression) (assumed : list Pred).

Lemma positivity_cons (v : Symbol) (vars : list Symbol) G :
  G ∪ {[ Q_positive v ]} ∪ positivity vars = G ∪ positivity (v :: vars).
Proof.
  unfold positivity. rewrite fmap_cons, list_to_set_cons.
  by rewrite (assoc_L (∪)).
Qed.

(** The loop over variables whose steps all succeed. *)
Lemma for_each_uncertainty_step self vars ds :
  Forall single_delta vars ->
  Forall2 (fun v d => diff (expr self) v = Ok d) vars ds ->
  forall acc G,
    for_each vars (uncertainty_step self) acc G =
    (Ok (fst acc ++ (delta_symbol <$> vars), uncertainty_sum ds vars (snd acc)),
     G ∪ positivity vars).
Proof.
  intros Hs Hd. induction Hd as [|v d vars ds Hv Hd IH]; intros acc G.
  - cbn. unfold ret, positivity. cbn.
    rewrite app_nil_r, (right_id_L ∅ (∪)). by destruct acc.
  - apply Forall_cons in Hs as [Hs1 Hs].
    cbn [for_each]. unfold bind at 1. unfold uncertainty_step, bind, lift, modify, ret.
    rewrite Hs1, Hv. cbn.
    rewrite (IH Hs). cbn.
    rewrite <- (assoc_L (++)). cbn.
    by rewrite positivity_cons.
Qed.

(** The call, unfolded, when every step of its loop succeeds. *)
Lemma calculate_absolute_uncertainty_steps self assumed ds G :
  Forall single_delta (args self) ->
  Forall2 (fun v d => diff (expr self) v = Ok d) (args self) ds ->
  calculate_absolute_uncertainty self assumed G =
  let G1 := G ∪ list_to_set assumed ∪ positivity (args self) in
  match refine G1 (uncertainty_sum ds (args self) (Integer 0)) with
  | Ok r => (Ok {| args := delta_symbol <$> args self; expr := r |}, ∅)
  | Raise e => (Raise e, G1)
  end.
Proof.
  intros Hs Hd. unfold calculate_absolute_uncertainty.
  unfold bind at 1. unfold modify at 1.
  unfold bind at 1. rewrite (for_each_uncertainty_step self _ _ Hs Hd). cbn.
  unfold bind, get, lift, modify, Expression_init. cbn.
  by destruct (refine _ _).
Qed.

(** A call that returns leaves the process-wide set empty. *)
Lemma calculate_absolute_uncertainty_clears self assumed G r G' :
  calculate_absolute_uncertainty self assumed G = (Ok r, G') -> G' = ∅.
Proof.
  unfold calculate_absolute_uncertainty, bind, modify, get, lift, Expression_init.
  destruct (for_each _ _ _ _) as [[acc|e] G1]; [|discriminate].
  destruct (refine _ _); [|discriminate].
  by intros [= _ <-].
Qed.

Lemma calculate_fractional_uncertainty_unfold self assumed G :
  calculate_fractional_uncertainty self assumed G =
  match calculate_absolute_uncertainty self assumed G with
  | (Ok absolute, G') =>
      (Ok {| args := args absolute; expr := fractional_formula self absolute |}, G')
  | (Raise e, G') => (Raise e, G')
  end.
Proof.
  unfold calculate_fractional_uncertainty, bind, lift, Expression_init.
  by destruct (calculate_absolute_uncertainty self assumed G) as [[?|?] ?].
Qed.

Lemma calculate_fractional_uncertainty_clears self assumed G r G' :
  calculate_fractional_uncertainty self assumed G = (Ok r, G') -> G' = ∅.
Proof.
  rewrite calculate_fractional_uncertainty_unfold.
  destruct (calculate_absolute_uncertainty self assumed G) as [[a|e] G1] eqn:H;
    [|discriminate].
  intros [= _ <-]. eauto using calculate_absolute_uncertainty_clears.
Qed.

(** The loop completes exactly when [symbols] gives one symbol and [diff] a
    derivative for every variable. *)
Lemma for_each_uncertainty_step_ok self vars :
  forall acc G acc' G',
    for_each vars (uncertainty_step self) acc G = (Ok acc', G') <->
    exists ss ds,
      Forall2 (fun v s => symbols (delta_name v) = Ok (OneSymbol s)) vars ss
      /\ Forall2 (fun v d => diff (expr self) v = Ok d) vars ds
      /\ acc' = (fst acc ++ ss, weighted_sum ds ss (snd acc))
      /\ G' = G ∪ positivity vars.
Proof.
  induction vars as [|v vars IH]; intros acc G acc' G'.
  - cbn. unfold ret. split.
    + intros [= <- <-]. exists [], []. repeat split; try by constructor.
      * destruct acc. cbn. by rewrite app_nil_r.
      * unfold positivity. cbn. by rewrite (right_id_L ∅ (∪)).
    + intros (ss & ds & Hs & Hd & -> & ->).
      apply Forall2_nil_inv_l in Hs as ->. apply Forall2_nil_inv_l in Hd as ->.
      unfold positivity. cbn. rewrite app_nil_r, (right_id_L ∅ (∪)). by destruct acc.
  - cbn [for_each]. unfold bind at 1.
    unfold uncertainty_step at 1. unfold bind, lift, modify, ret.
    split.
    + destruct (symbols (delta_name v)) as [[s|l]|e1] eqn:Hsym; cbn.
      2: by destruct (diff (expr self) v).
      2: discriminate.
      destruct (diff (expr self) v) as [d|e2] eqn:Hdiff; cbn; [|discriminate].
      intros H. apply IH in H as (ss & ds & Hs & Hd & -> & ->).
      exists (s :: ss), (d :: ds). cbn.
      repeat split; try by constructor.
      * by rewrite <- (assoc_L (++)).
      * by rewrite positivity_cons.
    + intros (ss & ds & Hs & Hd & -> & ->).
      apply Forall2_cons_inv_l in Hs as (s & ss' & Hs1 & Hs & ->).
      apply Forall2_cons_inv_l in Hd as (d & ds' & Hd1 & Hd & ->).
      rewrite Hs1, Hd1. cbn. apply IH.
      exists ss', ds'. cbn. repeat split; try done.
      * by rewrite <- (assoc_L (++)).
      * by rewrite positivity_cons.
Qed.

(** The outcome of the loop does not depend on the process-wide set, and the
    loop adds to it the positivity of the variables it got through. *)
Lemma for_each_uncertainty_step_frame self vars :
  forall acc, exists r k,
    (forall G, for_each vars (uncertainty_step self) acc G
               = (r, G ∪ positivity (take k vars)))
    /\ (forall a, r = Ok a -> k = length vars).
Proof.
  induction vars as [|v vars IH]; intros acc.
  - exists (Ok acc), 0%nat. split; [|done].
    intros G. cbn. unfold ret, positivity. cbn. by rewrite (right_id_L ∅ (∪)).
  - cbn [for_each]. unfold bind at 1.
    unfold uncertainty_step at 1. unfold bind, lift, modify, ret.
    assert (Hstop : forall e : exception, exists (r : result (list Symbol * Expr)) k,
               (forall G : gset Pred, (Raise e, G) = (r, G ∪ positivity (take k (v :: vars))))
               /\ (forall a, r = Ok a -> k = length (v :: vars))).
    { intros e. exists (Raise e), 0%nat. split; [|done].
      intros G. unfold positivity. cbn. by rewrite (right_id_L ∅ (∪)). }
    destruct (symbols (delta_name v)) as [[s|l]|e1]; cbn.
    2: destruct (diff (expr self) v); cbn; by apply Hstop.
    2: by apply Hstop.
    destruct (diff (expr self) v) as [d|e2]; cbn; [|by apply Hstop].
    destruct (IH (fst acc ++ [s], add (snd acc) (mul (Abs d) (sym s)))) as (r & k & Hr & Hk).
    exists r, (S k). split.
    + intros G. rewrite Hr. cbn [take]. by rewrite positivity_cons.
    + intros a Ha. cbn. f_equal. eauto.
Qed.

(** The call in closed form: how far the loop gets depends on the Expression
    alone. *)
Lemma calculate_absolute_uncertainty_frame self :
  exists (r : result (list Symbol * Expr)) (k : nat),
    forall assumed G,
      calculate_absolute_uncertainty self assumed G =
      match r with
      | Ok acc =>
          match refine (G ∪ list_to_set assumed ∪ positivity (args self)) (snd acc) with
          | Ok x => (Ok {| args := fst acc; expr := x |}, ∅)
          | Raise e => (Raise e, G ∪ list_to_set assumed ∪ positivity (args self))
          end
      | Raise e => (Raise e, G ∪ list_to_set assumed ∪ positivity (take k (args self)))
      end.
Proof.
  destruct (for_each_uncertainty_step_frame self (args self) ([], Integer 0))
    as (r & k & Hr & Hk).
  exists r, k. intros assumed G.
  unfold calculate_absolute_uncertainty. unfold bind at 1. unfold modify at 1.
  unfold bind at 1. rewrite Hr. destruct r as [acc|e]; [|done].
  rewrite (Hk acc eq_refl), firstn_all.
  unfold bind, get, lift, modify, Expression_init. cbn.
  by destruct (refine _ _).
Qed.





End IB_properties.
(** * The reference engine respects the value of expressions *)

Module MiniFacts.
Import Mini.
Local Open Scope Qc_scope.

Lemma Expr_ind' (P : Expr -> Prop) :
  (forall q, P (Num q)) ->
  (forall s, P (Sym s)) ->
  (forall ts, Forall P ts -> P (Add ts)) ->
  (forall fs, Forall P fs -> P (Mul fs)) ->
  (forall b e, P b -> P e -> P (Pow b e)) ->
  (forall u, P u -> P (Abs u)) ->
  forall x, P x.
Proof.
  intros HN HS HA HM HP HB.
  fix IH 1. intros [q|s|ts|fs|b e|u].
  - apply HN.
  - apply HS.
  - apply HA. induction ts as [|t ts IHts]; constructor; [apply IH | apply IHts].
  - apply HM. induction fs as [|t ts IHts]; constructor; [apply IH | apply IHts].
  - apply HP; apply IH.
  - apply HB; apply IH.
Qed.

Lemma cmp_eq x : forall y, cmp x y = Eq -> x = y.
Proof.
  induction x as [p|s|ts IH|fs IH|b e IHb IHe|u IHu] using Expr_ind';
    intros [q|t|ts'|fs'|b' e'|u']; cbn; try discriminate.
  - destruct p as [pn pd], q as [qn qd]. cbn.
    destruct (Z.compare_spec pn qn) as [Hn|Hn|Hn]; try discriminate.
    intros Hd%Pos.compare_eq. by subst.
  - intros H%String.compare_eq_iff. by subst.
  - intros H. f_equal. revert ts' H.
    induction IH as [|a l Ha _ IHl]; intros [|b m]; try discriminate; [done|].
    destruct (cmp a b) eqn:Hab; try discriminate.
    intros H. f_equal; [by apply Ha | by apply IHl].
  - intros H. f_equal. revert fs' H.
    induction IH as [|a l Ha _ IHl]; intros [|b m]; try discriminate; [done|].
    destruct (cmp a b) eqn:Hab; try discriminate.
    intros H. f_equal; [by apply Ha | by apply IHl].
  - destruct (cmp b b') eqn:Hb; try discriminate.
    intros He. f_equal; [by apply IHb | by apply IHe].
  - intros H. f_equal. by apply IHu.
Qed.

(** Rational arithmetic through [Q2Qc]. *)
Lemma Q2Qc_Qred q : Q2Qc (Qred q) = Q2Qc q.
Proof. apply Q2Qc_eq_iff, Qred_correct. Qed.

Lemma Q2Qc_plus a b : Q2Qc (a + b) = Q2Qc a + Q2Qc b.
Proof.
  unfold Qcplus. apply Q2Qc_eq_iff. cbn. by rewrite !Qred_correct.
Qed.

Lemma Q2Qc_mult a b : Q2Qc (a * b) = Q2Qc a * Q2Qc b.
Proof.
  unfold Qcmult. apply Q2Qc_eq_iff. cbn. by rewrite !Qred_correct.
Qed.

Lemma Q2Qc_inv a : Q2Qc (/ a) = / Q2Qc a.
Proof.
  unfold Qcinv. apply Q2Qc_eq_iff. cbn. by rewrite !Qred_correct.
Qed.

Lemma Qeq_bool_Q2Qc c d : Qeq_bool c d = true -> Q2Qc c = Q2Qc d.
Proof. intros H. by apply Q2Qc_eq_iff, Qeq_bool_iff. Qed.

Lemma Qeq_bool_Q2Qc_neq c d : Qeq_bool c d = false -> Q2Qc c <> Q2Qc d.
Proof.
  intros H Heq. apply Q2Qc_eq_iff, Qeq_bool_iff in Heq. congruence.
Qed.

Lemma Qcpower_1' (v : Qc) : v ^ 1 = v.
Proof. cbn. ring. Qed.

Lemma Qc_1_neq_0 : (1 : Qc) <> 0.
Proof. intros H. by apply Q2Qc_eq_iff, Q_apart_0_1 in H. Qed.

Lemma Qcinv_1 : / 1 = (1 : Qc).
Proof. rewrite <- (Qcmult_1_l (/ 1)). apply Qcmult_inv_r, Qc_1_neq_0. Qed.

Lemma Qcpower_add (v : Qc) a b : v ^ (a + b) = v ^ a * v ^ b.
Proof. induction a as [|a IH]; cbn; [ring | rewrite IH; ring]. Qed.

Lemma Qcpower_nonzero (v : Qc) a : v <> 0 -> v ^ a <> 0.
Proof.
  intros Hv. induction a as [|a IH]; cbn.
  - apply Qc_1_neq_0.
  - intros H. apply Qcmult_integral in H as [H|H]; contradiction.
Qed.

Lemma qpow_1 v : qpow v 1 = Some v.
Proof. unfold qpow. rewrite Pos2Nat.inj_1. f_equal. apply Qcpower_1'. Qed.

Lemma qpow_zpow v n : v <> 0 -> qpow v n = Some (zpow v n).
Proof. intros Hv. destruct n; cbn; try done. by destruct (decide (v = 0)). Qed.

Lemma zpow_spec v n (a b : nat) :
  v <> 0 -> n = (Z.of_nat a - Z.of_nat b)%Z -> zpow v n * v ^ b = v ^ a.
Proof.
  intros Hv Hn. destruct n as [|p|p]; cbn [zpow].
  - assert (a = b) as -> by lia. ring.
  - assert (a = (Pos.to_nat p + b)%nat) as -> by lia. by rewrite Qcpower_add.
  - assert (b = (Pos.to_nat p + a)%nat) as -> by lia. rewrite Qcpower_add.
    field. by apply Qcpower_nonzero.
Qed.

Lemma zpow_repr n : exists a b : nat, n = (Z.of_nat a - Z.of_nat b)%Z.
Proof.
  destruct n as [|p|p].
  - by exists 0%nat, 0%nat.
  - exists (Pos.to_nat p), 0%nat. lia.
  - exists 0%nat, (Pos.to_nat p). lia.
Qed.

Lemma zpow_add v m n : v <> 0 -> zpow v (m + n) = zpow v m * zpow v n.
Proof.
  intros Hv.
  destruct (zpow_repr m) as (a & b & Hm), (zpow_repr n) as (c & d & Hn).
  pose proof (zpow_spec v m a b Hv Hm) as H1.
  pose proof (zpow_spec v n c d Hv Hn) as H2.
  assert (H3 : zpow v (m + n) * v ^ (b + d) = v ^ (a + c)).
  { apply zpow_spec; [done | lia]. }
  rewrite !Qcpower_add in H3. rewrite <- H1, <- H2 in H3.
  assert (Hb : v ^ b <> 0) by by apply Qcpower_nonzero.
  assert (Hd : v ^ d <> 0) by by apply Qcpower_nonzero.
  apply (f_equal (fun x => x / (v ^ b * v ^ d))) in H3.
  transitivity (zpow v (m + n) * (v ^ b * v ^ d) / (v ^ b * v ^ d)); [field; done|].
  rewrite H3. field. done.
Qed.

Lemma zpow_opp v n : v <> 0 -> zpow v (- n) = / zpow v n.
Proof.
  intros Hv. destruct n as [|p|p].
  all: [> change (- 0)%Z with 0%Z | change (- Z.pos p)%Z with (Z.neg p)
        | change (- Z.neg p)%Z with (Z.pos p) ]; cbn [zpow].
  - by rewrite Qcinv_1.
  - done.
  - field. split; [by apply Qcpower_nonzero | apply Qc_1_neq_0].
Qed.

Lemma qpow_Some_nonzero v n a : qpow v n = Some a -> (n < 0)%Z -> v <> 0.
Proof. destruct n; cbn; try lia. by destruct (decide (v = 0)). Qed.

Lemma qpow_add v m n a b :
  qpow v m = Some a -> qpow v n = Some b -> qpow v (m + n) = Some (a * b).
Proof.
  intros Hm Hn. destruct (decide (v = 0)) as [->|Hv].
  - destruct m as [|p|p], n as [|q|q]; cbn in Hm, Hn; try done.
    all: injection Hm as <-; injection Hn as <-.
    + done.
    + rewrite Z.add_0_l. cbn [qpow]. f_equal. ring.
    + rewrite Z.add_0_r. cbn [qpow]. f_equal. ring.
    + change (Z.pos p + Z.pos q)%Z with (Z.pos (p + q)). cbn [qpow].
      by rewrite Pos2Nat.inj_add, Qcpower_add.
  - rewrite (qpow_zpow v m Hv) in Hm. rewrite (qpow_zpow v n Hv) in Hn.
    rewrite (qpow_zpow v (m + n) Hv). injection Hm as <-. injection Hn as <-.
    f_equal. by apply zpow_add.
Qed.

Section value.
Variable rho : Symbol -> Qc.
Abbreviation val := (value rho).

Lemma sum_opt_cons o l : sum_opt (o :: l) = lift2 Qcplus o (sum_opt l).
Proof. done. Qed.

Lemma prod_opt_cons o l : prod_opt (o :: l) = lift2 Qcmult o (prod_opt l).
Proof. done. Qed.

Lemma val_Add ts : val (Add ts) = sum_opt (val <$> ts).
Proof. done. Qed.

Lemma val_Mul fs : val (Mul fs) = prod_opt (val <$> fs).
Proof. done. Qed.

Lemma val_Pow_Num b n :
  val (Pow b (Num n)) = if is_int n then val b ≫= fun v => qpow v (Qnum n) else None.
Proof. cbn [value]. destruct (is_int n); [|done]. by destruct (val b). Qed.

Lemma val_Pow_num b n : val (Pow b (num n)) = val b ≫= fun v => qpow v n.
Proof. cbn. by destruct (val b). Qed.

Lemma lift2_Some f a b r :
  lift2 f a b = Some r <-> exists x y, a = Some x /\ b = Some y /\ r = f x y.
Proof.
  destruct a as [x|], b as [y|]; cbn; split.
  all: try (intros (x' & y' & ? & ? & ?); congruence).
  all: try discriminate.
  intros [= <-]. eauto.
Qed.

(** ** Sums *)
Lemma coeff_term_value t v :
  val t = Some v ->
  exists w, val (snd (coeff_term t)) = Some w /\ v = Q2Qc (fst (coeff_term t)) * w.
Proof.
  assert (Hone : forall u, coeff_term u = (1%Q, u) -> val u = Some v ->
            exists w, val (snd (coeff_term u)) = Some w
                      /\ v = Q2Qc (fst (coeff_term u)) * w).
  { intros u -> Hu. exists v. split; [done | cbn; change (Q2Qc 1) with 1; ring]. }
  destruct t as [q|s|ts|fs|b e|u]; intros H; try (by apply Hone).
  - exists 1. cbn in *. split; [done|]. injection H as <-. ring.
  - destruct fs as [|[q|s|ts|gs|b e|u] fs]; try (by apply Hone).
    rewrite val_Mul, fmap_cons, prod_opt_cons in H.
    apply lift2_Some in H as (x & y & Hx & Hy & ->).
    injection Hx as <-.
    destruct fs as [|f [|g fs]]; cbn [coeff_term fst snd].
    + exists y. split; [done | done].
    + cbn in Hy. destruct (val f) as [vf|] eqn:Hf; [|done]. cbn in Hy.
      injection Hy as <-. exists vf. split; [done | ring].
    + exists y. split; [done | done].
Qed.

Lemma scale_value c t w :
  val t = Some w -> val (scale c t) = Some (Q2Qc c * w).
Proof.
  intros H. unfold scale. destruct (Qeq_bool c 1) eqn:Hc.
  - apply Qeq_bool_Q2Qc in Hc. rewrite Hc, H. f_equal. change (Q2Qc 1) with 1. ring.
  - destruct t as [q|s|ts|fs|b e|u];
      try (rewrite val_Mul; cbn [fmap list_fmap prod_opt fold_right lift2];
           rewrite H; cbn; f_equal; ring).
    + cbn in *. injection H as <-. f_equal. by rewrite Q2Qc_Qred, Q2Qc_mult.
    + rewrite val_Mul, fmap_cons, prod_opt_cons. rewrite val_Mul in H.
      rewrite H. done.
Qed.

Lemma add_term_value c t w ts :
  val t = Some w ->
  forall S, sum_opt (val <$> ts) = Some S ->
  sum_opt (val <$> add_term c t ts) = Some (Q2Qc c * w + S).
Proof.
  intros Ht. induction ts as [|u ts IH]; intros S HS.
  - cbn [add_term]. rewrite fmap_cons, sum_opt_cons, (scale_value _ _ _ Ht).
    cbn in *. by injection HS as <-.
  - rewrite fmap_cons, sum_opt_cons in HS.
    apply lift2_Some in HS as (vu & S' & Hu & HS' & ->).
    cbn [add_term]. destruct (coeff_term_value _ _ Hu) as (w' & Hw' & Hvu).
    destruct (cmp t (coeff_term u).2) eqn:Hc.
    + apply cmp_eq in Hc. rewrite <- Hc in Hw'.
      assert (w' = w) as -> by congruence.
      destruct (Qeq_bool (Qred (c + (coeff_term u).1)) 0) eqn:Hz.
      * rewrite HS'. f_equal. apply Qeq_bool_Q2Qc in Hz.
        rewrite Q2Qc_Qred, Q2Qc_plus in Hz. change (Q2Qc 0) with 0 in Hz.
        rewrite Hvu.
        replace (Q2Qc c * w + (Q2Qc (coeff_term u).1 * w + S'))
          with ((Q2Qc c + Q2Qc (coeff_term u).1) * w + S') by ring.
        rewrite Hz. ring.
      * rewrite fmap_cons, sum_opt_cons, (scale_value _ _ _ Ht), HS'. cbn.
        f_equal. rewrite Q2Qc_Qred, Q2Qc_plus, Hvu. ring.
    + rewrite !fmap_cons, !sum_opt_cons, (scale_value _ _ _ Ht), Hu, HS'. done.
    + rewrite fmap_cons, sum_opt_cons, Hu, (IH _ HS'). cbn. f_equal. ring.
Qed.

Lemma add_step_value acc t v S :
  val t = Some v -> sum_opt (val <$> acc) = Some S ->
  sum_opt (val <$> add_step acc t) = Some (S + v).
Proof.
  intros Ht HS. unfold add_step. cbv zeta.
  destruct (coeff_term_value _ _ Ht) as (w & Hw & ->).
  destruct (Qeq_bool (coeff_term t).1 0) eqn:Hz.
  - apply Qeq_bool_Q2Qc in Hz. rewrite Hz, HS. f_equal.
    change (Q2Qc 0) with 0. ring.
  - rewrite (add_term_value _ _ _ _ Hw _ HS). f_equal. ring.
Qed.

Lemma fold_add_step_value l :
  forall L acc S,
    sum_opt (val <$> l) = Some L -> sum_opt (val <$> acc) = Some S ->
    sum_opt (val <$> fold_left add_step l acc) = Some (S + L).
Proof.
  induction l as [|t l IH]; intros L acc S HL HS.
  - cbn in HL. injection HL as <-. cbn [fold_left]. rewrite HS. f_equal. ring.
  - rewrite fmap_cons, sum_opt_cons in HL.
    apply lift2_Some in HL as (v & L' & Hv & HL' & ->).
    cbn [fold_left]. rewrite (IH _ _ _ HL' (add_step_value _ _ _ _ Hv HS)).
    f_equal. ring.
Qed.

Lemma sum_opt_app l1 l2 a b :
  sum_opt l1 = Some a -> sum_opt l2 = Some b -> sum_opt (l1 ++ l2) = Some (a + b).
Proof.
  revert a. induction l1 as [|o l1 IH]; intros a H1 H2.
  - cbn in H1. injection H1 as <-. cbn [app]. rewrite H2. f_equal. ring.
  - rewrite sum_opt_cons in H1. apply lift2_Some in H1 as (x & y & -> & Hy & ->).
    cbn [app]. rewrite sum_opt_cons, (IH _ Hy H2). cbn. f_equal. ring.
Qed.

Lemma terms_value x v : val x = Some v -> sum_opt (val <$> terms x) = Some v.
Proof.
  intros H. destruct x; cbn [terms]; try done;
    rewrite fmap_cons, sum_opt_cons, H; cbn; f_equal; ring.
Qed.

Lemma mk_add_value ts S : sum_opt (val <$> ts) = Some S -> val (mk_add ts) = Some S.
Proof.
  destruct ts as [|t [|u ts]]; cbn [mk_add]; try done.
  rewrite fmap_cons, sum_opt_cons. intros H.
  apply lift2_Some in H as (x & y & -> & Hy & ->).
  cbn in Hy. injection Hy as <-. f_equal. ring.
Qed.

Lemma add_value x y p q :
  val x = Some p -> val y = Some q -> val (add x y) = Some (p + q).
Proof.
  intros Hx Hy. unfold add. apply mk_add_value.
  replace (p + q) with (0 + (p + q)) by ring.
  apply fold_add_step_value; [|done].
  rewrite fmap_app. apply sum_opt_app; by apply terms_value.
Qed.

(** ** Products *)
Lemma base_exp_value f v :
  val f = Some v ->
  exists vb, val (base_exp f).1 = Some vb /\ qpow vb (base_exp f).2 = Some v.
Proof.
  assert (Hone : forall u, base_exp u = (u, 1%Z) -> val u = Some v ->
            exists vb, val (base_exp u).1 = Some vb /\ qpow vb (base_exp u).2 = Some v).
  { intros u -> Hu. exists v. split; [done | apply qpow_1]. }
  destruct f as [q|s|ts|fs|b e|u]; intros H; try (by apply Hone).
  destruct e as [n| | | | |]; try (by apply Hone).
  destruct (is_int n) eqn:Hn; [|apply Hone; [cbn [base_exp]; by rewrite Hn | done]].
  cbn [base_exp]. rewrite Hn.
  rewrite val_Pow_Num, Hn in H. destruct (val b) as [vb|] eqn:Hb; [|done].
  exists vb. split; [exact Hb | exact H].
Qed.

Lemma mk_pow_value b vb m w :
  val b = Some vb -> qpow vb m = Some w -> val (mk_pow b m) = Some w.
Proof.
  intros Hb Hw. unfold mk_pow.
  destruct (Z.eqb_spec m 0) as [->|H0].
  - cbn in Hw. by injection Hw as <-.
  - destruct (Z.eqb_spec m 1) as [->|H1].
    + rewrite qpow_1 in Hw. congruence.
    + rewrite val_Pow_num, Hb. done.
Qed.

Lemma mul_factor_value b vb n v fs :
  val b = Some vb -> qpow vb n = Some v ->
  forall P, prod_opt (val <$> fs) = Some P ->
  prod_opt (val <$> mul_factor b n fs) = Some (v * P).
Proof.
  intros Hb Hv. induction fs as [|f fs IH]; intros P HP.
  - cbn [mul_factor]. rewrite fmap_cons, prod_opt_cons, (mk_pow_value _ _ _ _ Hb Hv).
    cbn in HP. by injection HP as <-.
  - rewrite fmap_cons, prod_opt_cons in HP.
    apply lift2_Some in HP as (vf & P' & Hf & HP' & ->).
    cbn [mul_factor]. destruct (base_exp_value _ _ Hf) as (vb' & Hb' & Hvf).
    destruct (cmp b (base_exp f).1) eqn:Hc.
    + apply cmp_eq in Hc. rewrite <- Hc in Hb'.
      assert (vb' = vb) as -> by congruence.
      pose proof (qpow_add _ _ _ _ _ Hv Hvf) as Hsum.
      destruct (Z.eqb_spec (n + (base_exp f).2) 0) as [Hz|Hz].
      * rewrite Hz in Hsum. cbn [qpow] in Hsum.
        assert (Hone : v * vf = 1) by congruence.
        rewrite HP'. f_equal.
        replace (v * (vf * P')) with ((v * vf) * P') by ring.
        rewrite Hone. ring.
      * rewrite fmap_cons, prod_opt_cons, (mk_pow_value _ _ _ _ Hb Hsum), HP'.
        cbn. f_equal. ring.
    + rewrite !fmap_cons, !prod_opt_cons, (mk_pow_value _ _ _ _ Hb Hv), Hf, HP'. done.
    + rewrite fmap_cons, prod_opt_cons, Hf, (IH _ HP'). cbn. f_equal. ring.
Qed.

Lemma mul_step_value acc f v P :
  val f = Some v -> prod_opt (val <$> acc.2) = Some P ->
  exists P', prod_opt (val <$> (mul_step acc f).2) = Some P'
             /\ Q2Qc (mul_step acc f).1 * P' = Q2Qc acc.1 * P * v.
Proof.
  intros Hf HP.
  assert (Hgen : f = f -> exists P',
             prod_opt (val <$>
               (if ((base_exp f).2 =? 0)%Z then acc
                else (acc.1, mul_factor (base_exp f).1 (base_exp f).2 acc.2)).2) = Some P'
             /\ Q2Qc (if ((base_exp f).2 =? 0)%Z then acc
                      else (acc.1, mul_factor (base_exp f).1 (base_exp f).2 acc.2)).1 * P'
                = Q2Qc acc.1 * P * v).
  { intros _. destruct (base_exp_value _ _ Hf) as (vb & Hb & Hv).
    destruct (Z.eqb_spec (base_exp f).2 0) as [Hz|Hz].
    - rewrite Hz in Hv. cbn in Hv. injection Hv as <-.
      exists P. split; [done | ring].
    - exists (v * P). split; [by apply (mul_factor_value _ _ _ _ _ Hb Hv) | cbn; ring]. }
  destruct f as [q|s|ts|fs|b e|u]; try (by apply Hgen).
  cbn [mul_step fst snd]. exists P. split; [done|].
  cbn in Hf. injection Hf as <-. rewrite Q2Qc_Qred, Q2Qc_mult. ring.
Qed.

Lemma fold_mul_step_value l :
  forall L acc P,
    prod_opt (val <$> l) = Some L -> prod_opt (val <$> acc.2) = Some P ->
    exists P', prod_opt (val <$> (fold_left mul_step l acc).2) = Some P'
               /\ Q2Qc (fold_left mul_step l acc).1 * P' = Q2Qc acc.1 * P * L.
Proof.
  induction l as [|f l IH]; intros L acc P HL HP.
  - cbn in HL. injection HL as <-. exists P. split; [done | cbn; ring].
  - rewrite fmap_cons, prod_opt_cons in HL.
    apply lift2_Some in HL as (v & L' & Hv & HL' & ->).
    destruct (mul_step_value acc f v P Hv HP) as (P1 & HP1 & E1).
    destruct (IH _ _ _ HL' HP1) as (P2 & HP2 & E2).
    exists P2. cbn [fold_left]. split; [done|]. rewrite E2, E1. ring.
Qed.

Lemma prod_opt_app l1 l2 a b :
  prod_opt l1 = Some a -> prod_opt l2 = Some b -> prod_opt (l1 ++ l2) = Some (a * b).
Proof.
  revert a. induction l1 as [|o l1 IH]; intros a H1 H2.
  - cbn in H1. injection H1 as <-. cbn [app]. rewrite H2. f_equal. ring.
  - rewrite prod_opt_cons in H1. apply lift2_Some in H1 as (x & y & -> & Hy & ->).
    cbn [app]. rewrite prod_opt_cons, (IH _ Hy H2). cbn. f_equal. ring.
Qed.

Lemma factors_value x v : val x = Some v -> prod_opt (val <$> factors x) = Some v.
Proof.
  intros H. destruct x; cbn [factors]; try done;
    rewrite fmap_cons, prod_opt_cons, H; cbn; f_equal; ring.
Qed.

Lemma sum_scale_value c ts :
  forall S, sum_opt (val <$> ts) = Some S ->
  sum_opt (val <$> (scale c <$> ts)) = Some (Q2Qc c * S).
Proof.
  induction ts as [|t ts IH]; intros S HS.
  - cbn in HS. injection HS as <-. cbn. f_equal. ring.
  - rewrite fmap_cons, sum_opt_cons in HS.
    apply lift2_Some in HS as (v & S' & Hv & HS' & ->).
    rewrite !fmap_cons, sum_opt_cons, (scale_value _ _ _ Hv), (IH _ HS').
    cbn. f_equal. ring.
Qed.

Lemma mk_mul_value c fs P :
  prod_opt (val <$> fs) = Some P -> val (mk_mul c fs) = Some (Q2Qc c * P).
Proof.
  intros HP. unfold mk_mul.
  destruct (Qeq_bool c 0) eqn:H0.
  { apply Qeq_bool_Q2Qc in H0. rewrite H0. cbn. f_equal. change (Q2Qc 0) with 0. ring. }
  assert (Hc : forall gs, prod_opt (val <$> gs) = Some P ->
            val (if Qeq_bool c 1 then Mul gs else Mul (Num c :: gs)) = Some (Q2Qc c * P)).
  { intros gs Hgs. destruct (Qeq_bool c 1) eqn:H1.
    - apply Qeq_bool_Q2Qc in H1. rewrite H1, val_Mul, Hgs. f_equal.
      change (Q2Qc 1) with 1. ring.
    - rewrite val_Mul, fmap_cons, prod_opt_cons, Hgs. done. }
  destruct fs as [|f [|g fs]]; [| |by apply Hc].
  - cbn in HP. injection HP as <-. cbn. f_equal. ring.
  - rewrite fmap_cons, prod_opt_cons in HP.
    apply lift2_Some in HP as (v & y & Hv & Hy & ->).
    cbn in Hy. injection Hy as <-.
    destruct (Qeq_bool c 1) eqn:H1.
    { apply Qeq_bool_Q2Qc in H1. rewrite H1, Hv. f_equal. change (Q2Qc 1) with 1. ring. }
    assert (Hd : val (Mul [Num c; f]) = Some (Q2Qc c * (v * 1))).
    { rewrite val_Mul. cbn [fmap list_fmap]. rewrite !prod_opt_cons, Hv. cbn. done. }
    destruct f as [q|s|ts|gs|b e|u]; try exact Hd.
    rewrite val_Add in Hv. rewrite val_Add, (sum_scale_value _ _ _ Hv).
    f_equal. ring.
Qed.

Lemma mul_value x y p q :
  val x = Some p -> val y = Some q -> val (mul x y) = Some (p * q).
Proof.
  intros Hx Hy. unfold mul. cbv zeta.
  destruct (fold_mul_step_value (factors x ++ factors y) (p * q) (1%Q, []) 1)
    as (P' & HP' & E).
  - rewrite fmap_app. apply prod_opt_app; by apply factors_value.
  - done.
  - rewrite (mk_mul_value _ _ _ HP'), E. cbn [fst]. f_equal.
    change (Q2Qc 1) with 1. ring.
Qed.

(** ** The inverse *)
Lemma pow_atom_inv_value f v :
  val f = Some v -> v <> 0 -> val (pow_atom f (-1)) = Some (/ v).
Proof.
  intros Hf Hv.
  assert (Hgen : val (mk_pow f (-1)) = Some (/ v)).
  { apply (mk_pow_value _ _ _ _ Hf). rewrite (qpow_zpow _ _ Hv).
    cbn [zpow]. by rewrite Pos2Nat.inj_1, Qcpower_1'. }
  destruct f as [q|s|ts|fs|b e|u]; try exact Hgen.
  - cbn in Hf. injection Hf as <-. cbn [pow_atom].
    destruct (Qeq_bool q 0) eqn:Hq.
    { apply Qeq_bool_Q2Qc in Hq. contradiction. }
    cbn. f_equal. by rewrite Q2Qc_Qred, Q2Qc_inv.
  - destruct e as [m| | | | |]; try exact Hgen.
    cbn [pow_atom]. destruct (is_int m) eqn:Hm; [|exact Hgen].
    rewrite val_Pow_Num, Hm in Hf. destruct (val b) as [vb|] eqn:Hb; [|done].
    cbn [mbind option_bind] in Hf.
    apply (mk_pow_value _ _ _ _ Hb).
    assert (Hvb : Qnum m <> 0%Z -> vb <> 0).
    { intros Hm0 ->. destruct (Qnum m) as [|p|p]; cbn in Hf; try done.
      injection Hf as <-. apply Hv. apply Qcpower_0. lia. }
    destruct (Z.eq_dec (Qnum m) 0%Z) as [Hz|Hz].
    + rewrite Hz in *. cbn [qpow] in Hf. assert (v = 1) as -> by congruence.
      simpl (0 * -1)%Z. cbn [qpow]. by f_equal.
    + specialize (Hvb Hz). rewrite (qpow_zpow vb (Qnum m) Hvb) in Hf.
      rewrite (qpow_zpow vb (Qnum m * -1) Hvb).
      assert (v = zpow vb (Qnum m)) as -> by congruence.
      f_equal. replace (Qnum m * -1)%Z with (- Qnum m)%Z by lia.
      by apply zpow_opp.
Qed.

Lemma prod_pow_atom_inv_value fs :
  forall P, prod_opt (val <$> fs) = Some P -> P <> 0 ->
  prod_opt (val <$> ((fun f => pow_atom f (-1)) <$> fs)) = Some (/ P).
Proof.
  induction fs as [|f fs IH]; intros P HP HP0.
  - cbn in HP. assert (P = 1) as -> by congruence.
    cbn [fmap list_fmap prod_opt fold_right]. by rewrite Qcinv_1.
  - rewrite fmap_cons, prod_opt_cons in HP.
    apply lift2_Some in HP as (v & P' & Hv & HP' & ->).
    assert (v <> 0 /\ P' <> 0) as [Hv0 HP'0].
    { split; intros ->; apply HP0; ring. }
    rewrite !fmap_cons, prod_opt_cons, (pow_atom_inv_value _ _ Hv Hv0), (IH _ HP' HP'0).
    cbn. f_equal. by field.
Qed.

Lemma pow_inv_value y q :
  val y = Some q -> q <> 0 -> val (pow y (num (-1))) = Some (/ q).
Proof.
  intros Hy Hq. cbn [pow num is_int inject_Z Qden Qnum Pos.eqb pow_int Z.eqb].
  destruct y as [r|s|ts|fs|b e|u]; try (by apply pow_atom_inv_value).
  rewrite val_Mul. rewrite val_Mul in Hy. by apply prod_pow_atom_inv_value.
Qed.

Lemma truediv_value x y p q :
  val x = Some p -> val y = Some q -> q <> 0 -> val (truediv x y) = Some (p / q).
Proof.
  intros Hx Hy Hq. unfold truediv.
  by rewrite (mul_value _ _ _ _ Hx (pow_inv_value _ _ Hy Hq)).
Qed.

Lemma Mul_pair_value x y p q :
  val x = Some p -> val y = Some q -> val (Mul [x; y]) = Some (p * q).
Proof.
  intros Hx Hy. rewrite val_Mul, !fmap_cons, !prod_opt_cons, Hx, Hy.
  cbn. f_equal. ring.
Qed.

Lemma sum_opt_values ts :
  forall p, sum_opt (val <$> ts) = Some p ->
  exists ps, Forall2 (fun t v => val t = Some v) ts ps /\ p = foldr Qcplus 0 ps.
Proof.
  induction ts as [|t ts IH]; intros p Hp.
  - cbn in Hp. exists []. split; [by apply Forall2_nil | simpl; congruence].
  - rewrite fmap_cons, sum_opt_cons in Hp.
    apply lift2_Some in Hp as (v & S' & Hv & HS' & ->).
    destruct (IH _ HS') as (ps & Hps & ->).
    exists (v :: ps). split; [by apply Forall2_cons | done].
Qed.

End value.
End MiniFacts.

#[global] Instance Mini_laws : SympyLaws Mini_engine.
Proof.
  refine {| value := Mini.value |}.
  - done.
  - done.
  - apply MiniFacts.add_value.
  - apply MiniFacts.truediv_value.
  - apply MiniFacts.pow_inv_value.
  - apply MiniFacts.Mul_pair_value.
  - intros rho x p Hf Hp. destruct x; try discriminate.
    by apply MiniFacts.sum_opt_values.
Defined.

(** * The claims about [core/IB.py] *)

(** C1.  The uncertainty variable of [var] is made by
    [sympy.symbols('Δ' + var.name)] (line 72), which reads its text as a list
    of names.  For a variable whose name holds a blank, [Symbol('a b')], it
    returns the tuple [(Δa, b)] and not one symbol; the product of line 74
    with the tuple raises [TypeError], and the call returns no Expression
    with the variable list [[Δ(a b)]], nor any other. *)
Theorem absolute_uncertainty_split_name :
  Mini.symbols (delta_name Ex.a_b)
  = Ok (SymbolTuple [Ex.d_a; Ex.b])
  /\ Ex.run (calculate_absolute_uncertainty (Ex.expression [Ex.a_b] (Ex.E Ex.a_b)) []) ∅
     = Raise (TypeError "unsupported operand type(s): 'tuple'")
  /\ ~ exists r,
       Ex.run (calculate_absolute_uncertainty (Ex.expression [Ex.a_b] (Ex.E Ex.a_b)) []) ∅
       = Ok (Ex.expression [delta_symbol Ex.a_b] r).
Proof.
  assert (Hrun : Ex.run (calculate_absolute_uncertainty
                            (Ex.expression [Ex.a_b] (Ex.E Ex.a_b)) []) ∅
                 = Raise (TypeError "unsupported operand type(s): 'tuple'"))
    by reflexivity.
  split; [reflexivity|]. split; [exact Hrun|].
  intros [r Hr]. rewrite Hrun in Hr. discriminate.
Qed.

(** C4.  [global_assumptions.clear()] (line 78) is reached only by a call
    that gets through [refine]: a call that raises leaves what it added in
    the process-wide set.  [Expression([a], a * a)] with [Q.negative(a)]
    raises in [refine], for either operation, and leaves [Q.negative(a)] and
    [Q.positive(a)]; the later call on [Expression([b], a * b)], which has
    no assumption of its own about [a] and returns [Abs(a)*Δb] from the empty
    set, then raises. *)
Theorem leaked_assumptions_reach_a_later_call :
  calculate_absolute_uncertainty
    (Ex.expression [Ex.a] (Mini.mul (Ex.E Ex.a) (Ex.E Ex.a))) [Mini.Qnegative Ex.a] ∅
  = (Raise Mini.inconsistent, {[ Mini.Qnegative Ex.a; Mini.Qpositive Ex.a ]})
  /\ calculate_fractional_uncertainty
       (Ex.expression [Ex.a] (Mini.mul (Ex.E Ex.a) (Ex.E Ex.a))) [Mini.Qnegative Ex.a] ∅
     = (Raise Mini.inconsistent, {[ Mini.Qnegative Ex.a; Mini.Qpositive Ex.a ]})
  /\ Ex.run (calculate_absolute_uncertainty
               (Ex.expression [Ex.b] (Mini.mul (Ex.E Ex.a) (Ex.E Ex.b))) [])
            {[ Mini.Qnegative Ex.a; Mini.Qpositive Ex.a ]}
     = Raise Mini.inconsistent
  /\ Ex.run (calculate_absolute_uncertainty
               (Ex.expression [Ex.b] (Mini.mul (Ex.E Ex.a) (Ex.E Ex.b))) []) ∅
     = Ok (Ex.expression [Ex.d_b] (Mini.mul (Mini.Abs (Ex.E Ex.a)) (Ex.E Ex.d_b))).
Proof. repeat split; reflexivity. Qed.

(** C5.  An Expression without variables has the absolute uncertainty zero:
    the call returns the Expression with no variables and the formula 0,
    whatever the assumptions. *)
Theorem absolute_uncertainty_without_variables (E : Sympy) (L : SympyLaws E)
    (G : gset Pred) (self : Expression) (assumed : list Pred) :
  args self = [] ->
  calculate_absolute_uncertainty self assumed G
  = (Ok {| args := []; expr := Integer 0 |}, ∅).
Proof.
  intros Hargs.
  rewrite (calculate_absolute_uncertainty_steps self assumed [] G);
    rewrite Hargs; [| by constructor | by constructor].
  cbv zeta. unfold uncertainty_sum. cbn [zip zip_with fold_left].
  by rewrite refine_Integer.
Qed.

(** C5 at [Expression([], a + b)] with an assumption supplied. *)
Lemma absolute_uncertainty_without_variables_witness :
  calculate_absolute_uncertainty
    (Ex.expression [] (Mini.add (Ex.E Ex.a) (Ex.E Ex.b))) [Mini.Qpositive Ex.a] ∅
  = (Ok (Ex.expression [] (Mini.num 0)), ∅).
Proof.
  exact (absolute_uncertainty_without_variables Mini_engine Mini_laws ∅
           (Ex.expression [] (Mini.add (Ex.E Ex.a) (Ex.E Ex.b)))
           [Mini.Qpositive Ex.a] eq_refl).
Defined.

(** C7 (as amended).  Constructing an Expression validates nothing: for every
    variable list and formula it succeeds and stores both as given; so it
    succeeds in particular when the formula's symbols are all declared. *)
Theorem Expression_init_stores (E : Sympy) (args0 : list Symbol) (expr0 : Expr) :
  exists self,
    Expression_init args0 expr0 = Ok self
    /\ args self = args0 /\ expr self = expr0.
Proof. by eexists. Qed.

(** C7 as stated fails: [Expression([a], c * a)], the Expression of a doctest
    of [calculate_absolute_uncertainty], has the undeclared symbol [c] in its
    formula and is constructed. *)
Lemma undeclared_symbol_accepted :
  ~ contained (E := Mini_engine) [Ex.a] (Mini.mul (Ex.E Ex.c) (Ex.E Ex.a))
  /\ Expression_init (E := Mini_engine) [Ex.a] (Mini.mul (Ex.E Ex.c) (Ex.E Ex.a))
     = Ok (Ex.expression [Ex.a] (Mini.mul (Ex.E Ex.c) (Ex.E Ex.a))).
Proof.
  split; [|done].
  intros H. specialize (H Ex.c).
  assert (Hc : Ex.c ∈ atoms_Symbol (Mini.mul (Ex.E Ex.c) (Ex.E Ex.a))).
  { change (Ex.c ∈ elements (Mini.atoms (Mini.mul (Ex.E Ex.c) (Ex.E Ex.a)))).
    apply elem_of_elements, (bool_decide_unpack _). reflexivity. }
  apply H in Hc. apply elem_of_cons in Hc as [Hc|Hc]; [discriminate | by apply elem_of_nil in Hc].
Qed.




(** ** The fractional uncertainty *)

Section Fractional.
Context {E : Sympy} {L : SympyLaws E}.
Local Open Scope Qc_scope.

(** The first branch: every addend divided by the formula, and re-summed. *)
Lemma fold_truediv_value rho (e : Expr) q ts ps :
  value rho e = Some q -> q <> 0 ->
  Forall2 (fun t v => value rho t = Some v) ts ps ->
  forall acc a, value rho acc = Some a ->
    value rho (fold_left (fun frac addend => add frac (truediv addend e)) ts acc)
    = Some (a + foldr Qcplus 0 ps / q).
Proof.
  intros He Hq Hts. induction Hts as [|t v ts ps Hv _ IH]; intros acc a Ha.
  - cbn. rewrite Ha. f_equal. unfold Qcdiv. ring.
  - cbn [fold_left foldr].
    rewrite (IH _ (a + v / q)).
    + f_equal. unfold Qcdiv. ring.
    + apply value_add; [done|]. by apply value_truediv.
Qed.

Lemma fractional_formula_value rho (self absolute : Expression) p q :
  value rho (expr absolute) = Some p -> value rho (expr self) = Some q -> q <> 0 ->
  value rho (fractional_formula self absolute) = Some (p / q).
Proof.
  intros Hp Hq Hq0. unfold fractional_formula, type_of_Expr, type_of_Expression.
  cbn [pytype_eqb]. rewrite orb_false_r.
  destruct (func (expr absolute)) eqn:Hf; cbn [bool_decide decide_rel].
  - rewrite bool_decide_eq_true_2 by done.
    destruct (value_args_Add rho _ _ Hf Hp) as (ps & Hps & ->).
    rewrite (fold_truediv_value rho _ q _ ps Hq Hq0 Hps _ 0).
    + f_equal. ring.
    + apply value_Integer.
  - rewrite bool_decide_eq_false_2, bool_decide_eq_true_2 by done.
    by apply value_truediv.
  - rewrite !bool_decide_eq_false_2 by done.
    apply value_Mul_unevaluated; [done|]. by apply value_Pow_minus_one.
  - rewrite !bool_decide_eq_false_2 by done.
    apply value_Mul_unevaluated; [done|]. by apply value_Pow_minus_one.
Qed.

End Fractional.

(** C2.  Whenever [calculate_absolute_uncertainty] returns, so does
    [calculate_fractional_uncertainty], with the same list of uncertainty
    variables and with a formula that is the absolute one divided by the
    Expression's own: wherever both have a value and the divisor is not zero,
    its value is their quotient.  This holds in each branch: a sum is divided
    addend by addend and re-summed, a product is divided as a whole, and any
    other formula (a power too: the test for one compares the Expression, not
    its formula) becomes the unevaluated product with the inverse. *)
Theorem fractional_uncertainty_is_quotient (E : Sympy) (L : SympyLaws E)
    (G : gset Pred) (self : Expression) (assumed : list Pred)
    (absolute : Expression) (G' : gset Pred) :
  calculate_absolute_uncertainty self assumed G = (Ok absolute, G') ->
  exists fractional,
    calculate_fractional_uncertainty self assumed G = (Ok fractional, G')
    /\ args fractional = args absolute
    /\ (forall rho p q,
          value rho (expr absolute) = Some p -> value rho (expr self) = Some q ->
          q <> 0%Qc ->
          value rho (expr fractional) = Some (p / q)%Qc)
    /\ (func (expr absolute) = AddT ->
        expr fractional
        = fold_left (fun frac addend => add frac (truediv addend (expr self)))
                    (args_of (expr absolute)) (Integer 0))
    /\ (func (expr absolute) = MulT ->
        expr fractional = truediv (expr absolute) (expr self))
    /\ (func (expr absolute) <> AddT -> func (expr absolute) <> MulT ->
        expr fractional
        = Mul_unevaluated (expr absolute) (Pow (expr self) (Integer (-1)))).
Proof.
  intros Habs.
  exists {| args := args absolute; expr := fractional_formula self absolute |}.
  rewrite calculate_fractional_uncertainty_unfold, Habs.
  split; [done|]. split; [done|].
  split; [intros rho p q; apply fractional_formula_value|].
  cbn [expr]. unfold fractional_formula, type_of_Expr, type_of_Expression.
  cbn [pytype_eqb]. rewrite orb_false_r.
  repeat split.
  - intros ->. by rewrite bool_decide_eq_true_2.
  - intros ->. by rewrite bool_decide_eq_false_2, bool_decide_eq_true_2.
  - intros H1 H2. rewrite !bool_decide_eq_false_2; congruence.
Qed.

(** C2 at the doctest [Expression([a, b, c], a * b / c)]: the absolute
    uncertainty is a sum, and the fractional one is Δa/a + Δb/b + Δc/c. *)
Lemma fractional_uncertainty_is_quotient_witness :
  Ex.run (calculate_fractional_uncertainty
            (Ex.expression [Ex.a; Ex.b; Ex.c]
               (Mini.truediv (Mini.mul (Ex.E Ex.a) (Ex.E Ex.b)) (Ex.E Ex.c))) []) ∅
  = Ok (Ex.expression [Ex.d_a; Ex.d_b; Ex.d_c]
          (Mini.add (Mini.add (Mini.truediv (Ex.E Ex.d_a) (Ex.E Ex.a))
                              (Mini.truediv (Ex.E Ex.d_b) (Ex.E Ex.b)))
                    (Mini.truediv (Ex.E Ex.d_c) (Ex.E Ex.c))))
  /\ exists fractional,
       calculate_fractional_uncertainty
         (Ex.expression [Ex.a; Ex.b; Ex.c]
            (Mini.truediv (Mini.mul (Ex.E Ex.a) (Ex.E Ex.b)) (Ex.E Ex.c))) [] ∅
       = (Ok fractional, ∅)
       /\ args fractional = [Ex.d_a; Ex.d_b; Ex.d_c].
Proof.
  split; [reflexivity|].
  destruct (fractional_uncertainty_is_quotient Mini_engine Mini_laws ∅
              (Ex.expression [Ex.a; Ex.b; Ex.c]
                 (Mini.truediv (Mini.mul (Ex.E Ex.a) (Ex.E Ex.b)) (Ex.E Ex.c))) []
              (Ex.expression [Ex.d_a; Ex.d_b; Ex.d_c]
                 (Mini.add
                    (Mini.add
                       (Mini.mul (Mini.truediv (Ex.E Ex.b) (Ex.E Ex.c)) (Ex.E Ex.d_a))
                       (Mini.mul (Mini.truediv (Ex.E Ex.a) (Ex.E Ex.c)) (Ex.E Ex.d_b)))
                    (Mini.mul (Mini.mul (Mini.mul (Ex.E Ex.a) (Ex.E Ex.b))
                                 (Mini.pow (Ex.E Ex.c) (Mini.num (-2))))
                       (Ex.E Ex.d_c))))
              ∅) as (fractional & Hf & Hargs & _).
  - reflexivity.
  - exists fractional. by split.
Defined.

(** * The claims about [server.py] *)

Section Server_properties.
Context {E : Sympy}.

Lemma Expression_class_from_string :
  Expression_class "from_string"
  = Raise (AttributeError "type object 'Expression' has no attribute 'from_string'").
Proof. reflexivity. Qed.

(** A keyword that names no parameter is refused, whatever else is passed. *)
Lemma check_keywords_unexpected fname params by_keyword k v kw :
  k ∉ params -> k ∉ by_keyword ->
  exists msg, check_keywords fname params by_keyword ((k, v) :: kw) = Raise (TypeError msg).
Proof.
  intros Hp Hk. cbn. rewrite !bool_decide_eq_false_2 by done. eauto.
Qed.

Lemma bind_call_unexpected fname params varargs pos k v kw :
  k ∉ params ->
  exists msg, bind_call fname params varargs pos ((k, v) :: kw) = Raise (TypeError msg).
Proof.
  intros Hp. unfold bind_call.
  assert (Hk : k ∉ drop (length pos) params).
  { intros H. apply Hp. by apply (subseteq_drop (length pos) params). }
  destruct (check_keywords_unexpected fname params _ k v kw Hp Hk) as [msg Hmsg].
  rewrite Hmsg.
  destruct (drop (length params) pos), varargs; eauto.
Qed.

(** The [try] block raises, so the handler answers with the failure. *)
Lemma calculate_uncertainties_with_raise (cls : pyclass) (body : gmap string json)
    (G : gset Pred) e G' :
  calculate_uncertainties_try cls
    (dict_get body "expr" (JStr "")) (dict_get body "args" (JArr []))
    (dict_get body "vars" (JArr [])) (dict_get body "values" (JObj ∅))
    (dict_get body "prec" (JNum 3)) (dict_get body "refine" (JBool false)) G
  = (Raise e, G') ->
  calculate_uncertainties_with cls body G = (Ok calculate_failure, G').
Proof.
  intros H. unfold calculate_uncertainties_with, try_except. cbv zeta. by rewrite H.
Qed.

(** On a body that is a JSON object the six reads go through. *)
Lemma calculate_uncertainties_request_object (cls : pyclass) (body : gmap string json)
    (G : gset Pred) :
  calculate_uncertainties_request cls (JObj body) G = calculate_uncertainties_with cls body G.
Proof. reflexivity. Qed.

(** On any other body the first read raises, outside the [try]. *)
Lemma calculate_uncertainties_request_other (cls : pyclass) (payload : json)
    (G : gset Pred) :
  match payload with
  | JObj _ => True
  | _ => calculate_uncertainties_request cls payload G
         = (Raise (AttributeError "object has no attribute 'get'"), G)
  end.
Proof. by destruct payload. Qed.

End Server_properties.

(** C3.  The [try] block of the uncertainty-calculation handler always
    raises: the class [Expression] has no attribute [from_string]; and
    [evaluate] does not accept the keyword [precision], nor do
    [calculate_absolute_uncertainty] and [calculate_fractional_uncertainty]
    accept the keyword [refine], with which the handler calls them.  So the
    handler never answers with [success] true.  When the body of the request
    is a JSON object it returns the response with [success] false and the
    five other fields the empty string, and leaves the process-wide set as it
    was.  When the body is any other JSON value it returns no response: the
    read of line 72, which comes before the [try], raises [AttributeError],
    and nothing catches it. *)
Theorem calculate_uncertainties_never_succeeds (E : Sympy)
    (payload : json) (G : gset Pred) :
  match payload with
  | JObj body =>
      exists resp,
        calculate_uncertainties_request Expression_class payload G = (Ok resp, G)
        /\ resp !! "success" = Some (JBool false)
        /\ resp !! "value" = Some (JStr "")
        /\ resp !! "absoluteUncertaintyExpr" = Some (JStr "")
        /\ resp !! "absoluteUncertainty" = Some (JStr "")
        /\ resp !! "fractionalUncertaintyExpr" = Some (JStr "")
        /\ resp !! "percentageUncertainty" = Some (JStr "")
        /\ dom resp = list_to_set ["success"; "value"; "absoluteUncertaintyExpr";
                                   "absoluteUncertainty"; "fractionalUncertaintyExpr";
                                   "percentageUncertainty"]
  | _ =>
      exists msg,
        calculate_uncertainties_request Expression_class payload G
        = (Raise (AttributeError msg), G)
  end
  /\ (forall str_expr str_args str_vars values prec refine0 G0, exists msg,
        calculate_uncertainties_try Expression_class
          str_expr str_args str_vars values prec refine0 G0
        = (Raise (AttributeError msg), G0))
  /\ (exists msg, Expression_class "from_string" = Raise (AttributeError msg))
  /\ (forall self values prec G0, exists msg,
        call_method Expression_class self "evaluate" [PJson values]
          [("precision", PJson prec)] G0
        = (Raise (TypeError msg), G0))
  /\ (forall self assumed refine0 G0, exists msg,
        call_method Expression_class self "calculate_absolute_uncertainty" assumed
          [("refine", PJson refine0)] G0
        = (Raise (TypeError msg), G0))
  /\ (forall self assumed refine0 G0, exists msg,
        call_method Expression_class self "calculate_fractional_uncertainty" assumed
          [("refine", PJson refine0)] G0
        = (Raise (TypeError msg), G0)).
Proof.
  assert (Htry : forall str_expr str_args str_vars values prec refine0 G0,
             calculate_uncertainties_try Expression_class
               str_expr str_args str_vars values prec refine0 G0
             = (Raise (AttributeError
                         "type object 'Expression' has no attribute 'from_string'"), G0)).
  { intros. unfold calculate_uncertainties_try, bind, lift.
    rewrite Expression_class_from_string. reflexivity. }
  split; [|split; [|split; [|split; [|split]]]].
  - pose proof (calculate_uncertainties_request_other Expression_class payload G) as Hother.
    destruct payload as [| | | | |body]; eauto.
    exists calculate_failure. split.
    + rewrite calculate_uncertainties_request_object.
      eapply calculate_uncertainties_with_raise. apply Htry.
    + repeat split; reflexivity.
  - intros. eexists. apply Htry.
  - eauto using Expression_class_from_string.
  - intros self values prec G0.
    destruct (bind_call_unexpected "evaluate" ["self"; "values"] false
                [self; PJson values] "precision" (PJson prec) []) as [msg Hmsg].
    { apply (bool_decide_unpack _). reflexivity. }
    exists msg. unfold call_method, bind, lift.
    change (Expression_class "evaluate") with (Ok evaluate_method).
    cbv beta iota. unfold evaluate_method, bind, lift. by rewrite Hmsg.
  - intros self assumed refine0 G0.
    destruct (bind_call_unexpected "calculate_absolute_uncertainty" ["self"] true
                (self :: assumed) "refine" (PJson refine0) []) as [msg Hmsg].
    { apply (bool_decide_unpack _). reflexivity. }
    exists msg. unfold call_method, bind, lift.
    change (Expression_class "calculate_absolute_uncertainty")
      with (Ok calculate_absolute_uncertainty_method).
    cbv beta iota. unfold calculate_absolute_uncertainty_method, bind, lift.
    by rewrite Hmsg.
  - intros self assumed refine0 G0.
    destruct (bind_call_unexpected "calculate_fractional_uncertainty" ["self"] true
                (self :: assumed) "refine" (PJson refine0) []) as [msg Hmsg].
    { apply (bool_decide_unpack _). reflexivity. }
    exists msg. unfold call_method, bind, lift.
    change (Expression_class "calculate_fractional_uncertainty")
      with (Ok calculate_fractional_uncertainty_method).
    cbv beta iota. unfold calculate_fractional_uncertainty_method, bind, lift.
    by rewrite Hmsg.
Qed.

Section Responses.
Context {E : Sympy}.

Lemma calculate_response_fields success v1 v2 v3 v4 v5 :
  dom (calculate_response success v1 v2 v3 v4 v5) = list_to_set response_fields.
Proof. unfold calculate_response. by rewrite dom_list_to_map_L. Qed.

(** A [try] block that completes hands a response with every field to
    [jsonify]. *)
Lemma calculate_uncertainties_try_shape (cls : pyclass)
    str_expr str_args str_vars values prec refine0 (G : gset Pred) resp G' :
  calculate_uncertainties_try cls str_expr str_args str_vars values prec refine0 G
  = (Ok resp, G') ->
  exists v1 v2 v3 v4 v5, resp = calculate_response true v1 v2 v3 v4 v5.
Proof.
  unfold calculate_uncertainties_try, call_method, bind, lift, ret.
  intros H.
  repeat match type of H with
         | context [match ?x with _ => _ end] =>
             let Hx := fresh "Hx" in destruct x eqn:Hx; try discriminate
         end.
  injection H as <- _. eauto 10.
Qed.

End Responses.

(** C10.  The six reads of the request body (lines 72-77) come before the
    [try]: when the body is a JSON value other than an object, as the array
    [[1, 2]], the first read raises [AttributeError], nothing catches it, and
    the caller gets no response with the six fields, whatever class the name
    [Expression] is bound to.  When the body is an object the reads go
    through and the handler is the [try] with its [except]. *)
Theorem calculate_uncertainties_unhandled_fault (E : Sympy) (cls : pyclass)
    (payload : json) (G : gset Pred) :
  calculate_uncertainties_request cls (JArr [JNum 1; JNum 2]) G
  = (Raise (AttributeError "object has no attribute 'get'"), G)
  /\ match payload with
     | JObj body =>
         calculate_uncertainties_request cls payload G
         = calculate_uncertainties_with cls body G
     | _ =>
         calculate_uncertainties_request cls payload G
         = (Raise (AttributeError "object has no attribute 'get'"), G)
         /\ forall resp G',
              calculate_uncertainties_request cls payload G <> (Ok resp, G')
     end.
Proof.
  split; [reflexivity|].
  destruct payload; try (split; [reflexivity | discriminate]).
  reflexivity.
Qed.

Section Symbols.
Context {E : Sympy}.

#[local] Instance pair_le_total : Total pair_le.
Proof.
  intros [a1 a2] [b1 b2]. unfold pair_le, pair_leb. cbn.
  rewrite (String.compare_antisym b1 a1).
  destruct (String.compare a1 b1) eqn:Hc; cbn; [|by left|by right].
  apply String.compare_eq_iff in Hc as ->.
  destruct (String.leb_total a2 b2); [by left | by right].
Qed.

Lemma Ascii_compare_refl c : Ascii.compare c c = Eq.
Proof. unfold Ascii.compare. apply N.compare_refl. Qed.


Lemma String_compare_refl s : String.compare s s = Eq.
Proof. induction s as [|c s IH]; cbn; [done|]. by rewrite Ascii_compare_refl. Qed.







End Symbols.


(** C6 (what the code does).  [evaluate] has the parameters [self] and
    [values] only: called with the keyword [precision], as the handler calls
    it, it raises [TypeError]; called without, it returns the substitution
    into the formula, which no precision enters. *)
Theorem evaluate_has_no_precision (E : Sympy) (self : Expression)
    (values prec : json) (G : gset Pred) :
  (exists msg,
     call_method Expression_class (PExpression self) "evaluate" [PJson values]
       [("precision", PJson prec)] G
     = (Raise (TypeError msg), G))
  /\ (forall v, values_of_json values = Ok v ->
        call_method Expression_class (PExpression self) "evaluate" [PJson values] [] G
        = (Ok (PExpr (subs (expr self) v)), G)).
Proof.
  split.
  - destruct (bind_call_unexpected "evaluate" ["self"; "values"] false
                [PExpression self; PJson values] "precision" (PJson prec) [])
      as [msg Hmsg].
    { apply (bool_decide_unpack _). reflexivity. }
    exists msg. unfold call_method, bind, lift.
    change (Expression_class "evaluate") with (Ok evaluate_method).
    cbv beta iota. unfold evaluate_method, bind, lift. by rewrite Hmsg.
  - intros v Hv. unfold call_method, bind, lift.
    change (Expression_class "evaluate") with (Ok evaluate_method).
    cbv beta iota. unfold evaluate_method, bind, lift, ret. cbn.
    by rewrite Hv.
Qed.

(** * The doctests of [core/IB.py] and the scenarios of the specification,
      evaluated in the reference engine *)

(** [Expression([a, b, c], a + b + c).evaluate({a: 1, b: 2, c: 3})] is [6]. *)
Example evaluate_sum :
  evaluate (Ex.expression [Ex.a; Ex.b; Ex.c]
              (Mini.add (Mini.add (Ex.E Ex.a) (Ex.E Ex.b)) (Ex.E Ex.c)))
           (list_to_map [("a", Mini.num 1); ("b", Mini.num 2); ("c", Mini.num 3)])
  = Mini.num 6.
Proof. reflexivity. Qed.

(** [Expression([a], c * a).calculate_absolute_uncertainty(Q.positive(c))] is
    [f(Δa) = c*Δa]; without the assumption the absolute value stays. *)
Example absolute_uncertainty_scaled :
  Ex.run (calculate_absolute_uncertainty
            (Ex.expression [Ex.a] (Mini.mul (Ex.E Ex.c) (Ex.E Ex.a)))
            [Mini.Qpositive Ex.c]) ∅
  = Ok (Ex.expression [Ex.d_a] (Mini.mul (Ex.E Ex.c) (Ex.E Ex.d_a)))
  /\ Ex.run (calculate_absolute_uncertainty
               (Ex.expression [Ex.a] (Mini.mul (Ex.E Ex.c) (Ex.E Ex.a))) []) ∅
     = Ok (Ex.expression [Ex.d_a] (Mini.mul (Mini.Abs (Ex.E Ex.c)) (Ex.E Ex.d_a))).
Proof. split; reflexivity. Qed.

(** Symbol extraction on the text [a], on the empty text and on an array in
    the place of the text; and on a body that is no object, where the read
    of line 39 raises before the [try]. *)
Example get_symbols_examples :
  get_symbols (E := Mini_engine) (JObj {[ "expr" := JStr "a" ]})
  = Ok (symbols_response true [("a", "a")] "a")
  /\ get_symbols (E := Mini_engine) (JObj {[ "expr" := JStr "" ]})
     = Ok (symbols_response false [] "")
  /\ get_symbols (E := Mini_engine) (JObj {[ "expr" := JArr [JNum 1; JNum 2] ]})
     = Ok (symbols_response false [] "")
  /\ get_symbols (E := Mini_engine) (JArr [JNum 1; JNum 2])
     = Raise (AttributeError "object has no attribute 'get'").
Proof. repeat split; reflexivity. Qed.

(** A call that raises does not reach [global_assumptions.clear()]: what it
    added stays in the process-wide set, and a later call is refined under
    it.  Here the first call raises at its product with a tuple, having added
    [Q.negative(c)]; the later call then turns [Abs(c)] into [-c]. *)
Example assumptions_survive_a_raising_call :
  calculate_absolute_uncertainty (Ex.expression [Ex.a_b] (Ex.E Ex.a_b))
    [Mini.Qnegative Ex.c] ∅
  = (Raise (TypeError "unsupported operand type(s): 'tuple'"), {[ Mini.Qnegative Ex.c ]})
  /\ Ex.run (calculate_absolute_uncertainty
               (Ex.expression [Ex.a] (Mini.mul (Ex.E Ex.c) (Ex.E Ex.a))) [])
            {[ Mini.Qnegative Ex.c ]}
     = Ok (Ex.expression [Ex.d_a]
             (Mini.mul (Mini.neg (Ex.E Ex.c)) (Ex.E Ex.d_a))).
Proof. split; reflexivity. Qed.
(** * Further properties of [core/IB.py] *)

(** X10.  For every Expression whose variables have names that
    [sympy.symbols] reads as one symbol each, [calculate_absolute_uncertainty]
    returns the Expression whose variables are the uncertainty variables, one
    per declared variable and in the declared order, and whose formula is the
    sum over the variables of |df/dv| * Δv, refined under the process-wide
    assumptions: those present at entry, the supplied ones, and the
    positivity of every declared variable.  In particular
    [Expression([a, b, c], a + b - c)] yields
    [Expression([Δa, Δb, Δc], Δa + Δb + Δc)]. *)
Theorem absolute_uncertainty_result :
  (forall (E : Sympy) (G : gset Pred) (self : Expression) (assumed : list Pred)
          (ds : list Expr) (r : Expr),
      Forall single_delta (args self) ->
      Forall2 (fun v d => diff (expr self) v = Ok d) (args self) ds ->
      refine (G ∪ list_to_set assumed ∪ positivity (args self))
             (uncertainty_sum ds (args self) (Integer 0)) = Ok r ->
      fst (calculate_absolute_uncertainty self assumed G)
      = Ok {| args := delta_symbol <$> args self; expr := r |})
  /\ Ex.run (calculate_absolute_uncertainty
               (Ex.expression [Ex.a; Ex.b; Ex.c]
                  (Mini.sub (Mini.add (Ex.E Ex.a) (Ex.E Ex.b)) (Ex.E Ex.c))) []) ∅
     = Ok (Ex.expression [Ex.d_a; Ex.d_b; Ex.d_c]
             (Mini.add (Mini.add (Ex.E Ex.d_a) (Ex.E Ex.d_b)) (Ex.E Ex.d_c))).
Proof.
  split.
  - intros E G self assumed ds r Hs Hd Hr.
    rewrite (calculate_absolute_uncertainty_steps self assumed ds G Hs Hd).
    cbv zeta. by rewrite Hr.
  - reflexivity.
Qed.

(** The general part of X10 at the documented example: there the hypotheses
    hold, with the derivatives 1, 1 and -1. *)
Lemma absolute_uncertainty_result_witness :
  Forall (single_delta (E := Mini_engine)) [Ex.a; Ex.b; Ex.c]
  /\ Ex.run (calculate_absolute_uncertainty
               (Ex.expression [Ex.a; Ex.b; Ex.c]
                  (Mini.sub (Mini.add (Ex.E Ex.a) (Ex.E Ex.b)) (Ex.E Ex.c))) []) ∅
     = Ok (Ex.expression (delta_symbol <$> [Ex.a; Ex.b; Ex.c])
             (Mini.add (Mini.add (Ex.E Ex.d_a) (Ex.E Ex.d_b)) (Ex.E Ex.d_c))).
Proof.
  assert (Hs : Forall (single_delta (E := Mini_engine)) [Ex.a; Ex.b; Ex.c]).
  { repeat constructor. }
  split; [exact Hs|].
  apply (proj1 absolute_uncertainty_result Mini_engine ∅
           (Ex.expression [Ex.a; Ex.b; Ex.c]
              (Mini.sub (Mini.add (Ex.E Ex.a) (Ex.E Ex.b)) (Ex.E Ex.c)))
           [] [Mini.num 1; Mini.num 1; Mini.num (-1)]).
  - exact Hs.
  - repeat constructor.
  - reflexivity.
Defined.

(** X2.  [calculate_absolute_uncertainty] returns exactly when, for every
    declared variable, [symbols] reads the uncertainty name as one symbol and
    [diff] gives a derivative, and [refine] accepts the accumulated sum; the
    result then has these symbols as its variables (as many as were declared,
    in their order), the refined sum as its formula, and the process-wide set
    is left empty. *)
Theorem calculate_absolute_uncertainty_returns_iff (E : Sympy) (G : gset Pred)
    (self : Expression) (assumed : list Pred) (r : Expression) (G' : gset Pred) :
  calculate_absolute_uncertainty self assumed G = (Ok r, G') <->
  G' = ∅
  /\ length (args r) = length (args self)
  /\ Forall2 (fun v s => symbols (delta_name v) = Ok (OneSymbol s)) (args self) (args r)
  /\ exists ds,
       Forall2 (fun v d => diff (expr self) v = Ok d) (args self) ds
       /\ refine (G ∪ list_to_set assumed ∪ positivity (args self))
                 (weighted_sum ds (args r) (Integer 0)) = Ok (expr r).
Proof.
  unfold calculate_absolute_uncertainty. unfold bind at 1. unfold modify at 1.
  unfold bind at 1. split.
  - destruct (for_each _ _ _ _) as [[acc|e] G1] eqn:Hloop; [|discriminate].
    apply for_each_uncertainty_step_ok in Hloop as (ss & ds & Hs & Hd & -> & ->).
    unfold bind, get, lift, modify, Expression_init. cbn.
    destruct (refine _ _) as [x|e] eqn:Hr; [|discriminate].
    intros [= <- <-]. cbn. repeat split; try done.
    + symmetry. by eapply Forall2_length.
    + by exists ds.
  - intros (-> & _ & Hs & ds & Hd & Hr).
    assert (Hloop : for_each (args self) (uncertainty_step self) ([], Integer 0)
                      (G ∪ list_to_set assumed)
                    = (Ok ([] ++ args r, weighted_sum ds (args r) (Integer 0)),
                       G ∪ list_to_set assumed ∪ positivity (args self))).
    { apply for_each_uncertainty_step_ok. by exists (args r), ds. }
    rewrite Hloop. unfold bind, get, lift, modify, Expression_init. cbn.
    rewrite Hr. by destruct r.
Qed.

(** X1.  A call of [calculate_absolute_uncertainty] that raises does not
    clear the process-wide set: it leaves there what it found, every supplied
    assumption, and the positivity of the variables its loop got through. *)
Theorem raising_call_leaves_assumptions (E : Sympy) (G : gset Pred)
    (self : Expression) (assumed : list Pred) (x : exception) (G' : gset Pred) :
  calculate_absolute_uncertainty self assumed G = (Raise x, G') ->
  (exists k, G' = G ∪ list_to_set assumed ∪ positivity (take k (args self)))
  /\ G ⊆ G' /\ forall p, p ∈ assumed -> p ∈ G'.
Proof.
  intros H.
  assert (Hk : exists k, G' = G ∪ list_to_set assumed ∪ positivity (take k (args self))).
  { destruct (calculate_absolute_uncertainty_frame self) as (r & k & Hr).
    rewrite Hr in H. destruct r as [acc|e].
    - destruct (refine _ _); [discriminate|]. injection H as _ <-.
      exists (length (args self)). by rewrite firstn_all.
    - injection H as _ <-. by exists k. }
  split; [exact Hk|]. destruct Hk as [k ->].
  split; [intros q Hq; by apply elem_of_union_l, elem_of_union_l|].
  intros p Hp. apply elem_of_union_l, elem_of_union_r. by apply elem_of_list_to_set.
Qed.

(** X1 at a call that raises in [refine]: [Expression([a], a * a)] with the
    supplied [Q.negative(a)], from the empty set. *)
Lemma raising_call_leaves_assumptions_witness :
  calculate_absolute_uncertainty
    (Ex.expression [Ex.a] (Mini.mul (Ex.E Ex.a) (Ex.E Ex.a))) [Mini.Qnegative Ex.a] ∅
  = (Raise Mini.inconsistent, {[ Mini.Qnegative Ex.a; Mini.Qpositive Ex.a ]})
  /\ Mini.Qnegative Ex.a
     ∈ snd (calculate_absolute_uncertainty
              (Ex.expression [Ex.a] (Mini.mul (Ex.E Ex.a) (Ex.E Ex.a)))
              [Mini.Qnegative Ex.a] ∅).
Proof.
  assert (H : calculate_absolute_uncertainty
                (Ex.expression [Ex.a] (Mini.mul (Ex.E Ex.a) (Ex.E Ex.a)))
                [Mini.Qnegative Ex.a] ∅
              = (Raise Mini.inconsistent,
                 {[ Mini.Qnegative Ex.a; Mini.Qpositive Ex.a ]})) by reflexivity.
  split; [exact H|].
  rewrite H.
  apply (proj2 (proj2 (raising_call_leaves_assumptions Mini_engine ∅ _ _ _ _ H))).
  apply elem_of_cons. by left.
Defined.

(** X3.  Supplying [Q.positive(v)] for a declared variable [v] is redundant:
    the call returns or raises the same with and without it. *)
Theorem declared_positive_is_redundant (E : Sympy) (G : gset Pred)
    (self : Expression) (assumed : list Pred) (v : Symbol) :
  v ∈ args self ->
  fst (calculate_absolute_uncertainty self (Q_positive v :: assumed) G)
  = fst (calculate_absolute_uncertainty self assumed G)
  /\ fst (calculate_fractional_uncertainty self (Q_positive v :: assumed) G)
     = fst (calculate_fractional_uncertainty self assumed G).
Proof.
  intros Hv.
  assert (Habs : fst (calculate_absolute_uncertainty self (Q_positive v :: assumed) G)
                 = fst (calculate_absolute_uncertainty self assumed G)).
  { destruct (calculate_absolute_uncertainty_frame self) as (r & k & Hr).
    rewrite !Hr. destruct r as [acc|e]; [|done].
    assert (Hset : G ∪ list_to_set (Q_positive v :: assumed) ∪ positivity (args self)
                   = G ∪ list_to_set assumed ∪ positivity (args self)).
    { assert (Hp : Q_positive v ∈ positivity (args self)).
      { unfold positivity. apply elem_of_list_to_set, list_elem_of_fmap. eauto. }
      rewrite list_to_set_cons. apply leibniz_equiv. intros q.
      rewrite !elem_of_union, elem_of_singleton.
      split; [intros [[?|[->|?]]|?] | intros [[?|?]|?]]; auto. }
    rewrite Hset. by destruct (refine _ _). }
  split; [exact Habs|].
  rewrite !calculate_fractional_uncertainty_unfold.
  destruct (calculate_absolute_uncertainty self (Q_positive v :: assumed) G)
    as [[r1|e1] G1], (calculate_absolute_uncertainty self assumed G) as [[r2|e2] G2];
    cbn in Habs |- *; congruence.
Qed.

(** X3 at the doctest [Expression([a], c * a)] with [Q.positive(c)]: adding
    [Q.positive(a)] changes nothing. *)
Lemma declared_positive_is_redundant_witness :
  Ex.run (calculate_absolute_uncertainty
            (Ex.expression [Ex.a] (Mini.mul (Ex.E Ex.c) (Ex.E Ex.a)))
            [Mini.Qpositive Ex.a; Mini.Qpositive Ex.c]) ∅
  = Ex.run (calculate_absolute_uncertainty
              (Ex.expression [Ex.a] (Mini.mul (Ex.E Ex.c) (Ex.E Ex.a)))
              [Mini.Qpositive Ex.c]) ∅.
Proof.
  refine (proj1 (declared_positive_is_redundant Mini_engine ∅
                   (Ex.expression [Ex.a] (Mini.mul (Ex.E Ex.c) (Ex.E Ex.a)))
                   [Mini.Qpositive Ex.c] Ex.a _)).
  apply elem_of_cons. by left.
Defined.

Lemma string_app_assoc (s t u : string) : (s +:+ t) +:+ u = s +:+ t +:+ u.
Proof.
  induction s as [|c s IH]; [reflexivity|].
  change (String c ((s +:+ t) +:+ u) = String c (s +:+ t +:+ u)). by rewrite IH.
Qed.

(** X5.  [Expression.__repr__] shows the arguments as their names, in order,
    separated by a comma and a blank and with no comma after the last one,
    for any number of arguments: the case of one argument is what keeps the
    trailing comma of a one-item tuple out.  *)
Theorem Expression_repr_header (E : Sympy) (sstr : Expr -> string) (self : Expression) :
  Expression_repr sstr self
  = "f(" +:+ String.concat ", " (name <$> args self) +:+ ") = " +:+ sstr (expr self).
Proof.
  unfold Expression_repr. destruct (args self) as [|v [|w l]]; try reflexivity.
  unfold tuple_repr. cbn [fmap list_fmap].
  by rewrite !string_app_assoc.
Qed.

(** * Further properties of [server.py] *)

(** X7.  [calculate_uncertainties] reads six keys of the request body and
    nothing else: two bodies that agree on the keys [expr], [args], [vars],
    [values], [prec] and [refine] (present with the same value, or absent in
    both) get the same response and leave the same process state. *)
Theorem calculate_uncertainties_reads_six_keys (E : Sympy) (cls : pyclass)
    (body1 body2 : gmap string json) (G : gset Pred) :
  (forall k, k ∈ request_keys -> body1 !! k = body2 !! k) ->
  calculate_uncertainties_with cls body1 G = calculate_uncertainties_with cls body2 G.
Proof.
  intros H. unfold calculate_uncertainties_with, dict_get.
  assert (Hk : forall k, bool_decide (k ∈ request_keys) = true -> body1 !! k = body2 !! k).
  { intros k Hk. apply H. by apply bool_decide_eq_true in Hk. }
  by rewrite (Hk "expr" eq_refl), (Hk "args" eq_refl), (Hk "vars" eq_refl),
    (Hk "values" eq_refl), (Hk "prec" eq_refl), (Hk "refine" eq_refl).
Qed.

(** X7 for the class of [core/IB.py]: a key the handler does not read, here
    [units], changes nothing. *)
Lemma calculate_uncertainties_reads_six_keys_witness :
  calculate_uncertainties_with (E := Mini_engine) Expression_class
    {[ "expr" := JStr "a"; "units" := JStr "m" ]} ∅
  = calculate_uncertainties_with (E := Mini_engine) Expression_class
      {[ "expr" := JStr "a" ]} ∅.
Proof.
  apply (calculate_uncertainties_reads_six_keys Mini_engine Expression_class).
  intros k Hk. unfold request_keys in Hk.
  repeat (apply elem_of_cons in Hk as [->|Hk]; [reflexivity|]).
  by apply elem_of_nil in Hk.
Defined.

(** X8.  The response of [calculate_uncertainties] says [success] true
    exactly when every step of the [try] block completed, and then it is the
    response that block built; the handler leaves the process-wide
    assumptions as the [try] block left them, also when that raised. *)
Theorem calculate_uncertainties_success_iff (E : Sympy) (cls : pyclass)
    (body : gmap string json) (G : gset Pred) :
  let attempt :=
    calculate_uncertainties_try cls
      (dict_get body "expr" (JStr "")) (dict_get body "args" (JArr []))
      (dict_get body "vars" (JArr [])) (dict_get body "values" (JObj ∅))
      (dict_get body "prec" (JNum 3)) (dict_get body "refine" (JBool false)) G in
  exists resp,
    calculate_uncertainties_with cls body G = (Ok resp, snd attempt)
    /\ (resp !! "success" = Some (JBool true) <-> fst attempt = Ok resp)
    /\ (resp !! "success" = Some (JBool false) <->
        (exists e, fst attempt = Raise e) /\ resp = calculate_failure).
Proof.
  cbv zeta. unfold calculate_uncertainties_with, try_except. cbv zeta.
  destruct (calculate_uncertainties_try _ _ _ _ _ _ _ _) as [[resp|e] G'] eqn:Htry.
  - exists resp. cbn. split; [done|].
    apply calculate_uncertainties_try_shape in Htry as (v1 & v2 & v3 & v4 & v5 & ->).
    split; split; try done.
    + intros [[e He] _]. discriminate.
  - exists calculate_failure. cbn. split; [done|].
    split; split; try done.
    intros _. eauto.
Qed.

(** X11.  When the body of the request is a JSON object, whatever class the
    name [Expression] is bound to, the uncertainty-calculation handler
    returns a response that has the six fields and no other; and when a step
    of its [try] block raises, the response has [success] false and each of
    the five other fields the empty string. *)
Theorem calculate_uncertainties_failure_is_blank (E : Sympy) (cls : pyclass)
    (body : gmap string json) (G : gset Pred) :
  (exists resp G',
     calculate_uncertainties_request cls (JObj body) G = (Ok resp, G')
     /\ dom resp = list_to_set ["success"; "value"; "absoluteUncertaintyExpr";
                                "absoluteUncertainty"; "fractionalUncertaintyExpr";
                                "percentageUncertainty"])
  /\ (forall e G',
        calculate_uncertainties_try cls
          (dict_get body "expr" (JStr "")) (dict_get body "args" (JArr []))
          (dict_get body "vars" (JArr [])) (dict_get body "values" (JObj ∅))
          (dict_get body "prec" (JNum 3)) (dict_get body "refine" (JBool false)) G
        = (Raise e, G') ->
        exists resp,
          calculate_uncertainties_request cls (JObj body) G = (Ok resp, G')
          /\ resp !! "success" = Some (JBool false)
          /\ resp !! "value" = Some (JStr "")
          /\ resp !! "absoluteUncertaintyExpr" = Some (JStr "")
          /\ resp !! "absoluteUncertainty" = Some (JStr "")
          /\ resp !! "fractionalUncertaintyExpr" = Some (JStr "")
          /\ resp !! "percentageUncertainty" = Some (JStr "")).
Proof.
  rewrite calculate_uncertainties_request_object. split.
  - unfold calculate_uncertainties_with, try_except. cbv zeta.
    destruct (calculate_uncertainties_try _ _ _ _ _ _ _ _) as [[resp|e] G'] eqn:Htry.
    + exists resp, G'. split; [done|].
      apply calculate_uncertainties_try_shape in Htry as (v1 & v2 & v3 & v4 & v5 & ->).
      apply calculate_response_fields.
    + exists calculate_failure, G'. split; [done|].
      apply calculate_response_fields.
  - intros e G' Htry. exists calculate_failure.
    split; [by apply calculate_uncertainties_with_raise in Htry|].
    repeat split; reflexivity.
Qed.

(** X11 for the class of [core/IB.py] and the empty object: the [try] block
    raises at its first step, and the handler answers with the blank
    failure. *)
Lemma calculate_uncertainties_failure_is_blank_witness :
  exists resp,
    calculate_uncertainties_request (E := Mini_engine) Expression_class (JObj ∅) ∅
    = (Ok resp, ∅)
    /\ resp !! "success" = Some (JBool false)
    /\ resp !! "value" = Some (JStr "").
Proof.
  destruct (proj2 (calculate_uncertainties_failure_is_blank Mini_engine
                     Expression_class ∅ ∅)
              (AttributeError "type object 'Expression' has no attribute 'from_string'")
              ∅ eq_refl) as (resp & H1 & H2 & H3 & _).
  exists resp. split; [exact H1|]. split; [exact H2 | exact H3].
Defined.

